(** * strong-pubsub-bridge: the hook pipeline and the action bridge

    A shallow embedding of [index.js] (the [Bridge] class) and the
    properties of its hook pipeline ([before], [trigger], [next]) and of the
    listeners wired by [Bridge.prototype.connect].

    Conventions of the embedding.
    - JavaScript values are the type [value]; truthiness is [truthy].
    - The context object [ctx] of one action invocation is one mutable
      object shared by the hooks, the pipeline callback and [done]; it is the
      [ctx] component of [World].  A call that receives [ctx] is logged with
      the contents the object has at the time of the call.
    - Hooks are user functions.  Their behaviour is given as data, a [Hook]
      program: what the function does with [ctx] and [next], now or in a
      later turn of the event loop.
    - The calls the bridge makes on its collaborators ([connection],
      [client], its own [emit]) are logged as [Call]s and are taken to return
      normally.  The bridge's own [emit('error', err)] is Node's: it
      returns when the bridge has a listener for its error event (the
      listener, a user function, is taken to return) and throws when it has
      none ([listening], [emit_error]); a function that throws makes none
      of its later calls.  The closures the bridge hands out as
      callbacks are named by [Callback]; [invoke] is what happens when the
      collaborator calls one.
    - [this.hooks] is a plain object: a name that it inherits from
      [Object.prototype] reads as that inherited property unless the name
      was stored ([object_prototype_names]).  [before] is modelled for every
      name; [trigger] for the names that are not inherited, which the four
      actions are.
    - The array of hooks of an action is fixed while one invocation of
      the action runs: hooks are registered before traffic.
    - [debug] and [debugAction] only log and are left out. *)

From stdpp Require Import base option list strings gmap.

Local Open Scope string_scope.
Local Open Scope list_scope.
Set Warnings "-register-all".

(** ** JavaScript values *)

Inductive value : Type :=
  | VUndefined
  | VNull
  | VBool (b : bool)
  | VNum (n : Z)
  | VStr (s : string)
  | VObj (props : list (string * value)).

(** [if (v)]: the values that JavaScript treats as false are [undefined],
    [null], [false], [0] and the empty string. *)
Definition truthy (v : value) : bool :=
  match v with
  | VUndefined | VNull => false
  | VBool b => b
  | VNum n => negb (n =? 0)%Z
  | VStr s => match s with EmptyString => false | _ => true end
  | VObj _ => true
  end.

(** [a || b] *)
Definition js_or (a b : value) : value := if truthy a then a else b.

(** [v === false] *)
Definition is_false (v : value) : bool :=
  match v with VBool false => true | _ => false end.

(** ** The action context *)

Record Ctx : Type := mkCtx {
  ctx_authorized : value;
  ctx_reject : value;
  ctx_error : value;
  ctx_topic : value;
  ctx_message : value;
  ctx_options : value;
  ctx_subscriptions : value;
  ctx_unsubscriptions : value;
  ctx_rest : list (string * value)
}.

(** [ctx.error = err] *)
Definition set_error (err : value) (c : Ctx) : Ctx :=
  {| ctx_authorized := ctx_authorized c; ctx_reject := ctx_reject c;
     ctx_error := err; ctx_topic := ctx_topic c; ctx_message := ctx_message c;
     ctx_options := ctx_options c; ctx_subscriptions := ctx_subscriptions c;
     ctx_unsubscriptions := ctx_unsubscriptions c; ctx_rest := ctx_rest c |}.

(** [ctx.reject = v] and [ctx.authorized = v], as hooks write them. *)
Definition set_reject (v : value) (c : Ctx) : Ctx :=
  {| ctx_authorized := ctx_authorized c; ctx_reject := v;
     ctx_error := ctx_error c; ctx_topic := ctx_topic c;
     ctx_message := ctx_message c; ctx_options := ctx_options c;
     ctx_subscriptions := ctx_subscriptions c;
     ctx_unsubscriptions := ctx_unsubscriptions c; ctx_rest := ctx_rest c |}.

Definition set_authorized (v : value) (c : Ctx) : Ctx :=
  {| ctx_authorized := v; ctx_reject := ctx_reject c;
     ctx_error := ctx_error c; ctx_topic := ctx_topic c;
     ctx_message := ctx_message c; ctx_options := ctx_options c;
     ctx_subscriptions := ctx_subscriptions c;
     ctx_unsubscriptions := ctx_unsubscriptions c; ctx_rest := ctx_rest c |}.

(** ** Calls made by the bridge *)

(** The closures the bridge passes as callbacks: [done] of an action
    listener, and the anonymous function given to [connection.ack]. *)
Inductive Callback : Type :=
  | KDone (action : string)
  | KAck.

Inductive Call : Type :=
  | ConnPublish (topic message options : value)
  | ConnOnError (action : string) (c : Ctx) (err : value)
  | ConnAck (action : string) (c : Ctx) (k : Callback)
  | ConnClose
  | ClientPublish (topic message options : value) (k : Callback)
  | ClientSubscribe (topics options : value) (k : Callback)
  | ClientUnsubscribe (topics : value) (k : Callback)
  | ClientEnd
  | BridgeEmit (event : string) (err : value).

(** ** Hooks *)

(** What a hook function does when it is called with [(ctx, next)]:
    read [ctx], write [ctx], call [next(err)], or leave work for a later
    turn of the event loop (a timer or an I/O callback) and go on. *)
Inductive Hook : Type :=
  | HReturn
  | HRead (k : Ctx -> Hook)
  | HUpdate (f : Ctx -> Ctx) (k : Hook)
  | HNext (err : value) (k : Hook)
  | HLater (later : Hook) (k : Hook).

(** What happens inside one run of the pipeline, in order. *)
Inductive Event : Type :=
  | EvHook (i : nat)
  | EvNext (err : value)
  | EvCb (err : value)
  | EvCall (c : Call).

(** Work waiting for a later turn: the callback given to
    [process.nextTick], or the rest of a hook. *)
Inductive Task : Type :=
  | TCallback
  | TResume (p : Hook).

(** The state of one invocation of [trigger]: the shared context, the
    closure variable [cur], the log, and the pending work. *)
Record World : Type := mkWorld {
  ctx : Ctx;
  cur : nat;
  trace : list Event;
  queue : list Task
}.

Definition set_ctx (c : Ctx) (w : World) : World :=
  {| ctx := c; cur := cur w; trace := trace w; queue := queue w |}.
Definition set_cur (n : nat) (w : World) : World :=
  {| ctx := ctx w; cur := n; trace := trace w; queue := queue w |}.
Definition set_queue (q : list Task) (w : World) : World :=
  {| ctx := ctx w; cur := cur w; trace := trace w; queue := q |}.
Definition log (evs : list Event) (w : World) : World :=
  {| ctx := ctx w; cur := cur w; trace := trace w ++ evs; queue := queue w |}.
Definition enqueue (t : Task) (w : World) : World :=
  set_queue (queue w ++ [t]) w.

(** ** [Bridge.prototype.trigger] *)

Section Trigger.

(** The completion callback [cb]: given the error and the context it
    may write the context and call collaborators. *)
Variable cb : value -> Ctx -> Ctx * list Call.

(** [cb(err)] *)
Definition call_cb (err : value) (w : World) : World :=
  let r := cb err (ctx w) in
  log (EvCb err :: map EvCall r.2) (set_ctx r.1 w).

(** [var hooks = this.hooks[action]] when it is an array. *)
Variable hooks : list Hook.

(** The closure [next]:
<<
function next(err) {
  if(err || !hooks[cur + 1]) { return cb(err); }
  hooks[++cur](ctx, next);
}
>>
    [invoke] runs the body of a hook. *)
Definition next_with (invoke : Hook -> World -> option World)
    (err : value) (w : World) : option World :=
  let w := log [EvNext err] w in
  if truthy err then Some (call_cb err w)
  else match hooks !! S (cur w) with
       | None => Some (call_cb err w)
       | Some h => invoke h (log [EvHook (S (cur w))] (set_cur (S (cur w)) w))
       end.

(** The body of a hook, run until it returns. *)
Fixpoint exec (invoke : Hook -> World -> option World)
    (p : Hook) (w : World) : option World :=
  match p with
  | HReturn => Some w
  | HRead k => exec invoke (k (ctx w)) w
  | HUpdate f k => exec invoke k (set_ctx (f (ctx w)) w)
  | HNext err k =>
      match next_with invoke err w with
      | Some w' => exec invoke k w'
      | None => None
      end
  | HLater later k => exec invoke k (enqueue (TResume later) w)
  end.

(** [hooks[i](ctx, next)]; [fuel] bounds how deep hook calls nest. *)
Fixpoint call_hook (fuel : nat) (h : Hook) (w : World) : option World :=
  match fuel with
  | O => None
  | S fuel' => exec (call_hook fuel') h w
  end.

Definition next (fuel : nat) : value -> World -> option World :=
  next_with (call_hook fuel).

(** One turn of the event loop: the pending piece of work number [i]
    runs ([process.nextTick(cb)] calls [cb] with no argument). *)
Definition run_task (fuel : nat) (t : Task) (w : World) : option World :=
  match t with
  | TCallback => Some (call_cb VUndefined w)
  | TResume p => exec (call_hook fuel) p w
  end.

Definition tick (fuel : nat) (i : nat) (w : World) : option World :=
  match queue w !! i with
  | None => Some w
  | Some t => run_task fuel t (set_queue (delete i (queue w)) w)
  end.

Fixpoint run_ticks (fuel : nat) (sched : list nat) (w : World)
    : option World :=
  match sched with
  | [] => Some w
  | i :: sched' =>
      match tick fuel i w with
      | Some w' => run_ticks fuel sched' w'
      | None => None
      end
  end.

End Trigger.

(** ** The bridge *)

(** The bridge: its hooks, and, as it is an [EventEmitter], whether a
    listener is attached to its own error event. *)
Record Bridge : Type := mkBridge {
  hooks_of : gmap string (list Hook);
  listening : bool
}.

(** [new Bridge(connection, client)]: [this.hooks = {}], no listener. *)
Definition new_Bridge : Bridge := mkBridge ∅ false.

(** [bridge.on('error', listener)] *)
Definition on_error (b : Bridge) : Bridge := mkBridge (hooks_of b) true.

(** The names every plain object inherits from [Object.prototype]; each
    reads as a function, or for [__proto__] as an object: a truthy value
    that has no [push]. *)
Definition object_prototype_names : list string :=
  ["constructor"; "__proto__"; "hasOwnProperty"; "isPrototypeOf";
   "propertyIsEnumerable"; "toLocaleString"; "toString"; "valueOf";
   "__defineGetter__"; "__defineSetter__"; "__lookupGetter__";
   "__lookupSetter__"].

Definition inherited (name : string) : bool :=
  bool_decide (name ∈ object_prototype_names).

(** [Bridge.actions] *)
Definition actions : list string :=
  ["connect"; "publish"; "subscribe"; "unsubscribe"].

(** The second argument of [before]: a function or something else. *)
Inductive HookArg : Type :=
  | NotCallable (v : value)
  | Callable (h : Hook).

Inductive Result (A : Type) : Type :=
  | Returns (a : A)
  | Throws (msg : string).
Arguments Returns {A} a.
Arguments Throws {A} msg.

(** [Bridge.prototype.before]: when [this.hooks[action]] is not stored
    and the name is inherited, [!this.hooks[action]] is false and
    [this.hooks[action].push] is not a function. *)
Definition before (action : string) (hook : HookArg) (b : Bridge)
    : Result Bridge :=
  match hook with
  | NotCallable _ => Throws "hook function required"
  | Callable h =>
      match hooks_of b !! action with
      | Some hs =>
          Returns (mkBridge (<[action := hs ++ [h]]> (hooks_of b))
                     (listening b))
      | None =>
          if inherited action
          then Throws "this.hooks[action].push is not a function"
          else Returns (mkBridge (<[action := [h]]> (hooks_of b))
                          (listening b))
      end
  end.

(** [Bridge.prototype.trigger] *)
Definition trigger (b : Bridge) (action : string)
    (cb : value -> Ctx -> Ctx * list Call) (fuel : nat) (w : World)
    : option World :=
  match hooks_of b !! action with
  | Some ((h0 :: _) as hs) =>
      call_hook cb hs fuel h0 (log [EvHook 0] (set_cur 0 w))
  | _ => Some (enqueue TCallback w)
  end.

(** The hooks [trigger] and [next] read for an action. *)
Definition chain_of (b : Bridge) (action : string) : list Hook :=
  match hooks_of b !! action with
  | Some hs => hs
  | None => []
  end.

(** ** [Bridge.prototype.connect] *)

(** What a function of the bridge did: the calls it made, and whether it
    returned or threw. *)
Inductive Outcome : Type :=
  | Returned
  | Threw.

Definition Run : Type := list Call * Outcome.

(** One call on a collaborator, which returns. *)
Definition one_call (c : Call) : Run := ([c], Returned).

Definition skip : Run := ([], Returned).

(** [r1; r2]: when [r1] throws, [r2] is not reached. *)
Definition and_then (r1 r2 : Run) : Run :=
  match r1.2 with
  | Returned => (r1.1 ++ r2.1, r2.2)
  | Threw => r1
  end.

(** [bridge.emit('error', err)]: with no listener for the error event,
    [emit] throws. *)
Definition emit_error (b : Bridge) (err : value) : Run :=
  ([BridgeEmit "error" err], if listening b then Returned else Threw).

(** [function error(err) { bridge.emit('error', err); }] *)
Definition error (b : Bridge) (err : value) : Run := emit_error b err.

(** The function given to [connection.ack] as its callback. *)
Definition ack_callback (b : Bridge) (err : value) : Run :=
  if truthy err then and_then (one_call ConnClose) (error b err) else skip.

(** [function done(err)] of the listener of [action]; [c] is what [ctx]
    holds when [done] is called. *)
Definition done (b : Bridge) (action : string) (c : Ctx) (err : value)
    : Run :=
  and_then
    (if truthy err then and_then (error b err) (one_call ClientEnd) else skip)
    (one_call (ConnAck action c KAck)).

(** A collaborator calls back a closure of the bridge. *)
Definition invoke (b : Bridge) (k : Callback) (c : Ctx) (err : value)
    : Run :=
  match k with
  | KDone action => done b action c err
  | KAck => ack_callback b err
  end.

(** The function the listener of [action] gives to [trigger]:
    [function(err) { ctx.error = err; ... }]. *)
Definition on_hooks_done (b : Bridge) (action : string) (err : value)
    (c : Ctx) : Ctx * list Call :=
  let c := set_error err c in
  (c,
   if String.eqb action "connect" then (done b action c VUndefined).1
   else if truthy err then [ConnOnError action c err]
   else if is_false (ctx_authorized c) || truthy (ctx_reject c)
   then (done b action c VUndefined).1
   else if String.eqb action "publish"
   then [ClientPublish (ctx_topic c) (ctx_message c) (ctx_options c)
           (KDone action)]
   else if String.eqb action "subscribe"
   then [ClientSubscribe (js_or (ctx_subscriptions c) (ctx_topic c))
           (ctx_options c) (KDone action)]
   else if String.eqb action "unsubscribe"
   then [ClientUnsubscribe (js_or (ctx_unsubscriptions c) (ctx_topic c))
           (KDone action)]
   else []).

(** [hooks[action] = hooks[action] || []] for each of [Bridge.actions]. *)
Definition init_hooks (b : Bridge) : Bridge :=
  mkBridge
    (foldl (fun m action =>
              match m !! action with
              | Some _ => m
              | None => <[action := []]> m
              end)
           (hooks_of b) actions)
    (listening b).

(** The listener [connect] puts on the connection for [action]. *)
Definition on_action (b : Bridge) (action : string) (fuel : nat) (w : World)
    : option World :=
  trigger b action (on_hooks_done b action) fuel w.

(** What the collaborators emit. *)
Inductive Incoming : Type :=
  | ClientMessage (topic message options : value)
  | ClientError (err : value)
  | ConnectionError (err : value)
  | ConnectionEvent (name : string).

(** The object [ctx] as a value. *)
Definition ctx_value (c : Ctx) : value :=
  VObj (("authorized", ctx_authorized c) :: ("reject", ctx_reject c)
        :: ("error", ctx_error c) :: ("topic", ctx_topic c)
        :: ("message", ctx_message c) :: ("options", ctx_options c)
        :: ("subscriptions", ctx_subscriptions c)
        :: ("unsubscriptions", ctx_unsubscriptions c) :: ctx_rest c).

(** The listeners wired by one call of [connect], run on an emitted
    event.  What a connection event carries is the object [ctx w]; under
    the name of an action it goes to the listener of the action, under the
    name error to [error]; no other name has a listener.  When [error]
    throws, it throws into the [emit] of the collaborator. *)
Definition deliver (b : Bridge) (fuel : nat) (ev : Incoming) (w : World)
    : option World :=
  match ev with
  | ClientMessage topic message options =>
      Some (log [EvCall (ConnPublish topic message options)] w)
  | ClientError err | ConnectionError err =>
      Some (log (map EvCall (error b err).1) w)
  | ConnectionEvent name =>
      if bool_decide (name ∈ actions) then on_action b name fuel w
      else if String.eqb name "error"
      then Some (log (map EvCall (error b (ctx_value (ctx w))).1) w)
      else Some w
  end.

(** A run of the pipeline of an action: the call of [trigger], then the
    turns of the event loop given by [sched], each one running the pending
    piece of work of that number. *)
Definition run (b : Bridge) (action : string)
    (cb : value -> Ctx -> Ctx * list Call) (sched : list nat) (w : World)
    : option World :=
  let fuel := length (chain_of b action) in
  match trigger b action cb fuel w with
  | Some w' => run_ticks cb (chain_of b action) fuel sched w'
  | None => None
  end.

(** Registering a list of hooks in order, one call of [before] each; a
    call that throws registers nothing. *)
Definition before_all (action : string) (hs : list Hook) (b : Bridge)
    : Bridge :=
  foldl (fun b h => match before action (Callable h) b with
                    | Returns b' => b'
                    | Throws _ => b
                    end) b hs.

(** The state in which an action arrives with context [c]. *)
Definition world_of (c : Ctx) : World := mkWorld c 0 [] [].

(** ** Reading a log *)

Definition is_cb (e : Event) : bool :=
  match e with EvCb _ => true | _ => false end.
Definition is_hook (e : Event) : bool :=
  match e with EvHook _ => true | _ => false end.
Definition is_next (e : Event) : bool :=
  match e with EvNext _ => true | _ => false end.
Definition is_ack (c : Call) : bool :=
  match c with ConnAck _ _ _ => true | _ => false end.
Definition is_emit (c : Call) : bool :=
  match c with BridgeEmit _ _ => true | _ => false end.
Definition is_end (c : Call) : bool :=
  match c with ClientEnd => true | _ => false end.
Definition is_close (c : Call) : bool :=
  match c with ConnClose => true | _ => false end.
Definition is_conn_publish (c : Call) : bool :=
  match c with ConnPublish _ _ _ => true | _ => false end.
Definition is_dispatch (c : Call) : bool :=
  match c with
  | ClientPublish _ _ _ _ | ClientSubscribe _ _ _ | ClientUnsubscribe _ _ => true
  | _ => false
  end.
Definition is_client (c : Call) : bool :=
  is_dispatch c || is_end c.

Fixpoint count {A} (f : A -> bool) (l : list A) : nat :=
  match l with
  | [] => 0
  | x :: l' => (if f x then 1 else 0) + count f l'
  end.

(** The calls on collaborators in a log. *)
Fixpoint calls_of (tr : list Event) : list Call :=
  match tr with
  | [] => []
  | EvCall c :: tr' => c :: calls_of tr'
  | _ :: tr' => calls_of tr'
  end.

(** The indices of the hooks called, in the order of the calls. *)
Fixpoint hooks_called (tr : list Event) : list nat :=
  match tr with
  | [] => []
  | EvHook i :: tr' => i :: hooks_called tr'
  | _ :: tr' => hooks_called tr'
  end.

(** The callback a dispatch call hands to the client. *)
Definition dispatch_callback (c : Call) : option Callback :=
  match c with
  | ClientPublish _ _ _ k | ClientSubscribe _ _ k | ClientUnsubscribe _ k =>
      Some k
  | _ => None
  end.

(** The callback an acknowledgement call hands to the connection. *)
Definition ack_callback_of (c : Call) : option Callback :=
  match c with
  | ConnAck _ _ k => Some k
  | _ => None
  end.

(** ** What hooks may do with [next] *)

(** The hook never calls [next], now or later. *)
Fixpoint no_next (p : Hook) : Prop :=
  match p with
  | HReturn => True
  | HRead k => forall c, no_next (k c)
  | HUpdate _ k => no_next k
  | HNext _ _ => False
  | HLater later k => no_next later /\ no_next k
  end.

(** The hook calls [next] at most once, whatever it reads. *)
Fixpoint at_most_once (p : Hook) : Prop :=
  match p with
  | HReturn => True
  | HRead k => forall c, at_most_once (k c)
  | HUpdate _ k => at_most_once k
  | HNext _ k => no_next k
  | HLater later k =>
      (at_most_once later /\ no_next k) \/ (no_next later /\ at_most_once k)
  end.

(** The hook calls [next] before it returns. *)
Fixpoint sync_next (p : Hook) : Prop :=
  match p with
  | HReturn => False
  | HRead k => forall c, sync_next (k c)
  | HUpdate _ k => sync_next k
  | HNext _ _ => True
  | HLater _ k => sync_next k
  end.

Definition quiet_task (t : Task) : Prop :=
  match t with
  | TCallback => False
  | TResume p => no_next p
  end.

Definition linear_task (t : Task) : Prop :=
  match t with
  | TCallback => False
  | TResume p => at_most_once p
  end.

(** At most one pending piece of work can still call [next]. *)
Fixpoint linear_queue (q : list Task) : Prop :=
  match q with
  | [] => True
  | t :: q' =>
      (quiet_task t /\ linear_queue q') \/
      (linear_task t /\ Forall quiet_task q')
  end.

(** ** The shape of a log *)

(** The log of a run, whatever the hooks do: [trigger] calls hook 0; each
    call of [next] is followed at once either by the call of the callback
    with its argument and by what the callback calls, or, when the argument
    is no error, by the call of the hook after [cur]; a callback given to
    [process.nextTick] is called with no argument. *)
Inductive steps (cb : value -> Ctx -> Ctx * list Call)
    : list Event -> Prop :=
  | steps_nil : steps cb []
  | steps_first rest :
      steps cb rest -> steps cb (EvHook 0 :: rest)
  | steps_stop err c rest :
      steps cb rest ->
      steps cb (EvNext err :: EvCb err :: map EvCall (cb err c).2 ++ rest)
  | steps_adv err i rest :
      truthy err = false -> steps cb rest ->
      steps cb (EvNext err :: EvHook (S i) :: rest)
  | steps_tick c rest :
      steps cb rest ->
      steps cb (EvCb VUndefined :: map EvCall (cb VUndefined c).2 ++ rest).

(** The log of a chain of [n] hooks that call [next] at most once, from
    the call of hook [i] on: it ends with [Some j] when hook [j] was called
    and [next] was not called since, with [None] when the callback was
    called. *)
Inductive chain (n : nat) : nat -> list Event -> option nat -> Prop :=
  | chain_open i : chain n i [] (Some i)
  | chain_stop i err calls :
      truthy err = true \/ n <= S i ->
      chain n i (EvNext err :: EvCb err :: map EvCall calls) None
  | chain_step i err tr st :
      truthy err = false -> S i < n ->
      chain n (S i) tr st ->
      chain n i (EvNext err :: EvHook (S i) :: tr) st.

(** From [w] to [w']: the log grew by calls of [next] and what they led
    to, and the hooks called are those after [cur w] up to [cur w']. *)
Definition steps_post (cb : value -> Ctx -> Ctx * list Call)
    (hooks : list Hook) (w w' : World) : Prop :=
  cur w <= cur w' /\ (cur w < length hooks -> cur w' < length hooks) /\
  exists tr, trace w' = trace w ++ tr /\ steps cb tr /\
    hooks_called tr = seq (S (cur w)) (cur w' - cur w).

(** [invoke] returns when it is asked for a hook from index [m] on. *)
Definition steps_from (cb : value -> Ctx -> Ctx * list Call)
    (hooks : list Hook) (m : nat)
    (invoke : Hook -> World -> option World) : Prop :=
  forall h w, m <= cur w -> cur w < length hooks ->
    exists w', invoke h w = Some w' /\ steps_post cb hooks w w'.

(** What one turn does to a chain: the log goes on as a chain from [cur],
    and at most one pending piece of work may still call [next]. *)
Definition linear_post (hooks : list Hook) (w w' : World) : Prop :=
  exists tr st q,
    trace w' = trace w ++ tr /\ queue w' = queue w ++ q /\
    chain (length hooks) (cur w) tr st /\
    match st with
    | Some j => cur w' = j /\ linear_queue q
    | None => Forall quiet_task q
    end.

Definition linear_from (hooks : list Hook) (m : nat)
    (invoke : Hook -> World -> option World) : Prop :=
  forall h w, hooks !! cur w = Some h -> m <= cur w ->
    exists w', invoke h w = Some w' /\ linear_post hooks w w'.

(** The state of a run of a chain, as seen between two turns. *)
Definition chain_inv (hooks : list Hook) (w : World) : Prop :=
  exists tr st,
    trace w = EvHook 0 :: tr /\
    chain (length hooks) 0 tr st /\
    match st with
    | Some j => cur w = j /\ linear_queue (queue w)
    | None => Forall quiet_task (queue w)
    end.

(** What a turn does when the hooks call [next] before they return: the
    callback has been called once more at least. *)
Definition sync_post (cb : value -> Ctx -> Ctx * list Call)
    (hooks : list Hook) (w w' : World) : Prop :=
  steps_post cb hooks w w' /\
  count is_cb (trace w) < count is_cb (trace w').

Definition sync_from (cb : value -> Ctx -> Ctx * list Call)
    (hooks : list Hook) (m : nat)
    (invoke : Hook -> World -> option World) : Prop :=
  forall h w, hooks !! cur w = Some h -> m <= cur w ->
    exists w', invoke h w = Some w' /\ sync_post cb hooks w w'.

(** The claim of C1 as the specification words it: the error handler is
    called for the action and the error, and the acknowledgement of the
    action is called after it. *)
Definition error_then_ack (action : string) (err : value)
    (calls : list Call) : Prop :=
  exists c c' k pre mid post,
    calls = pre ++ ConnOnError action c err :: mid
                ++ ConnAck action c' k :: post.

(** ** More vocabulary *)

Definition is_onerror (c : Call) : bool :=
  match c with ConnOnError _ _ _ => true | _ => false end.

(** What the downstream peer gets as the answer to an action. *)
Definition is_response (c : Call) : bool := is_ack c || is_onerror c.

(** [ctx.authorized === false || ctx.reject] *)
Definition rejected (c : Ctx) : bool :=
  is_false (ctx_authorized c) || truthy (ctx_reject c).

(** A hook that writes the context and goes on:
    [function(ctx, next) { ...; next(); }]. *)
Definition updating_hook (f : Ctx -> Ctx) : Hook :=
  HUpdate f (HNext VUndefined HReturn).

(** The writes of a list of such hooks, in order. *)
Definition apply_all (fs : list (Ctx -> Ctx)) (c : Ctx) : Ctx :=
  foldl (fun c f => f c) c fs.

(** The log of [k] calls of [next()] that go on, after hook [i]. *)
Fixpoint pass_trace (i k : nat) : list Event :=
  match k with
  | O => []
  | S k' => EvNext VUndefined :: EvHook (S i) :: pass_trace (S i) k'
  end.

(** One step of the loop of [connect] over [Bridge.actions]. *)
Definition init_hook (m : gmap string (list Hook)) (action : string)
    : gmap string (list Hook) :=
  match m !! action with
  | Some _ => m
  | None => <[action := []]> m
  end.

(** A check of a log of a chain of [n] hooks: each call on the client
    comes when [n] calls of hooks came before it; [seen] counts the calls of
    hooks so far. *)
Fixpoint dispatch_guard (n seen : nat) (tr : list Event) : bool :=
  match tr with
  | [] => true
  | EvHook _ :: tr' => dispatch_guard n (S seen) tr'
  | EvCall c :: tr' =>
      (negb (is_dispatch c) || (n <=? seen)%nat) && dispatch_guard n seen tr'
  | _ :: tr' => dispatch_guard n seen tr'
  end.

Definition is_resume (t : Task) : Prop :=
  match t with
  | TCallback => False
  | TResume _ => True
  end.

(** From [w] to [w'], for the listener of [action]: the log grew by a
    piece that passes the check, with one call of a hook for each step of
    [cur]; the pending work is still made of rests of hooks only. *)
Definition guard_post (hooks : list Hook) (w w' : World) : Prop :=
  cur w <= cur w' /\
  (Forall is_resume (queue w) -> Forall is_resume (queue w')) /\
  exists tr, trace w' = trace w ++ tr /\
    count is_hook tr = cur w' - cur w /\
    dispatch_guard (length hooks) (S (cur w)) tr = true.

Definition guard_from (hooks : list Hook) (m : nat)
    (invoke : Hook -> World -> option World) : Prop :=
  forall h w, m <= cur w -> cur w < length hooks ->
    exists w', invoke h w = Some w' /\ guard_post hooks w w'.

(** A hook that writes the context and calls [next(v)]:
    [function(ctx, next) { ...; next(v); }]. *)
Definition step_hook (st : (Ctx -> Ctx) * value) : Hook :=
  HUpdate st.1 (HNext st.2 HReturn).

(** The pipeline as the specification describes it, for such hooks: a
    loop over the hooks in the order of registration, on one context, that
    stops at the first hook that gives an error and completes with it, or
    completes with what the last hook gave.  The result is the context at
    the end and the log after the call of hook [i]. *)
Fixpoint hook_loop (cb : value -> Ctx -> Ctx * list Call) (i : nat)
    (c : Ctx) (sts : list ((Ctx -> Ctx) * value)) : Ctx * list Event :=
  match sts with
  | [] => (c, [])
  | st :: rest =>
      let c' := st.1 c in
      let completes :=
        ((cb st.2 c').1,
         EvNext st.2 :: EvCb st.2 :: map EvCall (cb st.2 c').2) in
      if truthy st.2 then completes
      else match rest with
           | [] => completes
           | _ :: _ =>
               let r := hook_loop cb (S i) c' rest in
               (r.1, EvNext st.2 :: EvHook (S i) :: r.2)
           end
  end.

(** ** Sample data *)

Definition empty_ctx : Ctx :=
  mkCtx VUndefined VUndefined VUndefined VUndefined VUndefined VUndefined
    VUndefined VUndefined [].

Definition publish_ctx : Ctx :=
  mkCtx VUndefined VUndefined VUndefined (VStr "t1") (VStr "m1") (VObj [])
    VUndefined VUndefined [].

Definition an_error : value := VObj [("message", VStr "denied")].

(** Three hooks: the first authorizes and goes on, the second fails
    after deferred work, the third would go on. *)
Definition hook_allow : Hook :=
  HUpdate (set_authorized (VBool true)) (HNext VUndefined HReturn).
Definition hook_deny_later : Hook :=
  HLater (HNext an_error HReturn) HReturn.
Definition hook_pass : Hook := HNext VUndefined HReturn.
Definition three_hooks : list Hook :=
  [hook_allow; hook_deny_later; hook_pass].

(** Two hooks that call [next] at once; the second rejects. *)
Definition hook_reject : Hook :=
  HUpdate (set_reject (VBool true)) (HNext VUndefined HReturn).
Definition two_sync_hooks : list Hook := [hook_pass; hook_reject].

(** A hook that calls [next()] twice. *)
Definition hook_twice : Hook := HNext VUndefined (HNext VUndefined HReturn).

(** A hook that calls [next()] and calls it again in a later turn, and a
    hook that fails. *)
Definition hook_again : Hook :=
  HLater (HNext VUndefined HReturn) (HNext VUndefined HReturn).
Definition hook_fail : Hook := HNext an_error HReturn.

(** Three hooks that write the context; the second fails. *)
Definition three_steps : list ((Ctx -> Ctx) * value) :=
  [(set_authorized (VBool true), VUndefined);
   (set_reject (VBool true), an_error);
   (set_reject (VBool false), VUndefined)].

(** * Properties *)

(** ** Lists of events *)

Lemma count_app {A} (f : A -> bool) (l1 l2 : list A) :
  count f (l1 ++ l2) = count f l1 + count f l2.
Proof. induction l1 as [|x l1 IH]; simpl; [done|]. rewrite IH. lia. Qed.

Lemma count_calls_cb calls : count is_cb (map EvCall calls) = 0.
Proof. induction calls as [|c calls IH]; simpl; auto. Qed.

Lemma count_calls_hook calls : count is_hook (map EvCall calls) = 0.
Proof. induction calls as [|c calls IH]; simpl; auto. Qed.

Lemma count_calls_next calls : count is_next (map EvCall calls) = 0.
Proof. induction calls as [|c calls IH]; simpl; auto. Qed.

Lemma calls_of_app tr1 tr2 :
  calls_of (tr1 ++ tr2) = calls_of tr1 ++ calls_of tr2.
Proof.
  induction tr1 as [|e tr1 IH]; simpl; [done|].
  destruct e; simpl; by rewrite ?IH.
Qed.

Lemma calls_of_calls calls : calls_of (map EvCall calls) = calls.
Proof. induction calls as [|c calls IH]; simpl; [done|]. by rewrite IH. Qed.

Lemma hooks_called_app tr1 tr2 :
  hooks_called (tr1 ++ tr2) = hooks_called tr1 ++ hooks_called tr2.
Proof.
  induction tr1 as [|e tr1 IH]; simpl; [done|].
  destruct e; simpl; by rewrite ?IH.
Qed.

Lemma hooks_called_calls calls : hooks_called (map EvCall calls) = [].
Proof. induction calls as [|c calls IH]; simpl; auto. Qed.

Lemma calls_then_next calls : forall rest tr1 err tr2,
  map EvCall calls ++ rest = tr1 ++ EvNext err :: tr2 ->
  exists tr1', rest = tr1' ++ EvNext err :: tr2.
Proof.
  induction calls as [|c calls IH]; intros rest tr1 err tr2 Heq; simpl in *.
  - by exists tr1.
  - destruct tr1 as [|x tr1]; simpl in Heq; [discriminate|].
    injection Heq as _ Heq. eauto.
Qed.

(** ** Pending work *)

Lemma quiet_linear_queue q : Forall quiet_task q -> linear_queue q.
Proof.
  induction 1 as [|t q Ht Hq IH]; simpl; auto.
Qed.

Lemma linear_queue_app_quiet q1 q2 :
  linear_queue q1 -> Forall quiet_task q2 -> linear_queue (q1 ++ q2).
Proof.
  intros H1 H2. induction q1 as [|t q1 IH]; simpl in *.
  - by apply quiet_linear_queue.
  - destruct H1 as [[Ht Hq]|[Ht Hq]]; [left|right]; split; auto.
    by apply Forall_app.
Qed.

Lemma linear_queue_quiet_app q1 q2 :
  Forall quiet_task q1 -> linear_queue q2 -> linear_queue (q1 ++ q2).
Proof.
  intros H1 H2. induction H1 as [|t q1 Ht Hq IH]; simpl; auto.
Qed.

(** Taking one piece of work out of the queue: either it is quiet and the
    rest is as before, or it is the one that may call [next]. *)
Lemma linear_queue_pick q : forall i t,
  linear_queue q -> q !! i = Some t ->
  (quiet_task t /\ linear_queue (delete i q)) \/
  (linear_task t /\ Forall quiet_task (delete i q)).
Proof.
  induction q as [|t0 q IH]; intros i t Hq Hi; [done|].
  destruct i as [|i]; simpl in *.
  - injection Hi as ->. destruct Hq as [[Ht Hq]|[Ht Hq]]; auto.
  - destruct Hq as [[Ht Hq]|[Ht Hq]].
    + destruct (IH i t Hq Hi) as [[H1 H2]|[H1 H2]]; [left|right]; split; auto.
    + left. split.
      * eapply Forall_lookup_1; eauto.
      * right. split; [done|]. by apply Forall_delete.
Qed.

(** ** Chains *)

Lemma chain_app n i tr1 j tr2 st :
  chain n i tr1 (Some j) -> chain n j tr2 st -> chain n i (tr1 ++ tr2) st.
Proof.
  intros H1. remember (Some j) as s eqn:Hs.
  induction H1 as [i|i err calls Hstop|i err tr st' Herr Hlt H1 IH];
    intros H2.
  - injection Hs as ->. exact H2.
  - discriminate.
  - simpl. apply chain_step; auto.
Qed.

(** In a chain the callback is called at most once, and only at the end. *)
Lemma chain_count_cb n i tr st :
  chain n i tr st ->
  count is_cb tr = match st with Some _ => 0 | None => 1 end.
Proof.
  induction 1 as [i|i err calls Hstop|i err tr st Herr Hlt H IH]; simpl; auto.
  by rewrite count_calls_cb.
Qed.

(** In a chain every hook called has called [next] at most once. *)
Lemma chain_count_next n i tr st :
  chain n i tr st ->
  count is_next tr =
    count is_hook tr + match st with Some _ => 0 | None => 1 end.
Proof.
  induction 1 as [i|i err calls Hstop|i err tr st Herr Hlt H IH]; simpl.
  - done.
  - by rewrite count_calls_next, count_calls_hook.
  - rewrite IH. lia.
Qed.

(** In a chain, a call of [next] with an error is followed by the call
    of the callback with this error and by nothing else of the pipeline. *)
Lemma chain_error_stops n i tr st :
  chain n i tr st ->
  forall tr1 err tr2, tr = tr1 ++ EvNext err :: tr2 -> truthy err = true ->
    exists calls, tr2 = EvCb err :: map EvCall calls.
Proof.
  induction 1 as [i|i e calls Hstop|i e tr st He Hlt H IH];
    intros tr1 err tr2 Heq Herr.
  - by destruct tr1.
  - destruct tr1 as [|x tr1]; simpl in Heq.
    + injection Heq as He Heq. subst. by exists calls.
    + injection Heq as _ Heq. destruct tr1 as [|y tr1]; simpl in Heq;
        [discriminate|]. injection Heq as _ Heq.
      assert (EvNext err ∈ map EvCall calls) as Hin.
      { rewrite Heq. apply elem_of_app. right. by left. }
      apply list_elem_of_fmap in Hin as (c & Hc & _). discriminate.
  - destruct tr1 as [|x tr1]; simpl in Heq.
    + injection Heq as Heq _. congruence.
    + injection Heq as _ Heq. destruct tr1 as [|y tr1]; simpl in Heq;
        [discriminate|]. injection Heq as _ Heq. eauto.
Qed.

(** ** Logs of any hooks *)

Lemma steps_app cb tr1 tr2 :
  steps cb tr1 -> steps cb tr2 -> steps cb (tr1 ++ tr2).
Proof.
  induction 1 as [|rest H IH|err c rest H IH|err i rest Herr H IH
                  |c rest H IH]; intros H2; simpl; auto.
  - constructor; auto.
  - rewrite <- app_assoc. by constructor; auto.
  - constructor; auto.
  - rewrite <- app_assoc. by constructor; auto.
Qed.

(** After a call of [next] with an error comes the call of the callback
    with this error, and no call of a hook in between. *)
Lemma steps_error_completes cb tr :
  steps cb tr ->
  forall tr1 err tr2, tr = tr1 ++ EvNext err :: tr2 -> truthy err = true ->
    exists calls rest, tr2 = EvCb err :: map EvCall calls ++ rest.
Proof.
  induction 1 as [|rest H IH|e c rest H IH|e i rest He H IH|c rest H IH];
    intros tr1 err tr2 Heq Herr.
  - by destruct tr1.
  - destruct tr1 as [|x tr1]; simpl in Heq; [discriminate|].
    injection Heq as _ Heq. eauto.
  - destruct tr1 as [|x tr1]; simpl in Heq.
    + injection Heq as He Heq. subst. by eexists _, rest.
    + injection Heq as _ Heq. destruct tr1 as [|y tr1]; simpl in Heq;
        [discriminate|]. injection Heq as _ Heq.
      apply calls_then_next in Heq as (tr1' & Heq). eauto.
  - destruct tr1 as [|x tr1]; simpl in Heq.
    + injection Heq as Heq _. congruence.
    + injection Heq as _ Heq. destruct tr1 as [|y tr1]; simpl in Heq;
        [discriminate|]. injection Heq as _ Heq. eauto.
  - destruct tr1 as [|x tr1]; simpl in Heq; [discriminate|].
    injection Heq as _ Heq.
    apply calls_then_next in Heq as (tr1' & Heq). eauto.
Qed.

(** Every call in the log is a call of the callback. *)
Lemma steps_calls cb (P : Call -> Prop) tr :
  (forall err c, Forall P (cb err c).2) ->
  steps cb tr -> Forall P (calls_of tr).
Proof.
  intros Hcb.
  induction 1 as [|rest H IH|e c rest H IH|e i rest He H IH|c rest H IH];
    simpl; auto.
  - rewrite calls_of_app, calls_of_calls. apply Forall_app. auto.
  - rewrite calls_of_app, calls_of_calls. apply Forall_app. auto.
Qed.

(** When the callback makes [k] calls of some kind each time it is
    called, the log has [k] such calls for each call of the callback. *)
Lemma steps_count cb (f : Call -> bool) k tr :
  (forall err c, count f (cb err c).2 = k) ->
  steps cb tr -> count f (calls_of tr) = k * count is_cb tr.
Proof.
  intros Hcb.
  induction 1 as [|rest H IH|e c rest H IH|e i rest He H IH|c rest H IH];
    simpl.
  - lia.
  - exact IH.
  - rewrite calls_of_app, calls_of_calls, !count_app, count_calls_cb, Hcb, IH.
    nia.
  - exact IH.
  - rewrite calls_of_app, calls_of_calls, !count_app, count_calls_cb, Hcb, IH.
    nia.
Qed.

(** ** Executions with any hooks *)

Lemma steps_post_count_cb cb hooks w w' :
  steps_post cb hooks w w' ->
  count is_cb (trace w) <= count is_cb (trace w').
Proof.
  intros (_ & _ & tr & -> & _). rewrite count_app. lia.
Qed.

Section AnyHooks.

Variable cb : value -> Ctx -> Ctx * list Call.
Variable hooks : list Hook.

Lemma steps_post_refl w : steps_post cb hooks w w.
Proof.
  split; [lia|]. split; [done|]. exists []. rewrite app_nil_r.
  split; [done|]. split; [constructor|]. by rewrite Nat.sub_diag.
Qed.

Lemma steps_post_trans w1 w2 w3 :
  steps_post cb hooks w1 w2 -> steps_post cb hooks w2 w3 ->
  steps_post cb hooks w1 w3.
Proof.
  intros (Hc1 & Hn1 & t1 & Ht1 & Hs1 & Hh1)
         (Hc2 & Hn2 & t2 & Ht2 & Hs2 & Hh2).
  split; [lia|]. split; [auto|]. exists (t1 ++ t2).
  rewrite Ht2, Ht1, app_assoc. split; [done|].
  split; [by apply steps_app|].
  rewrite hooks_called_app, Hh1, Hh2.
  replace (cur w3 - cur w1) with ((cur w2 - cur w1) + (cur w3 - cur w2))
    by lia.
  rewrite seq_app. do 2 f_equal. lia.
Qed.

(** A call of [next] that calls the callback. *)
Lemma steps_post_next_stops err w :
  steps_post cb hooks w (call_cb cb err (log [EvNext err] w)).
Proof.
  split; [simpl; lia|]. split; [done|].
  exists (EvNext err :: EvCb err :: map EvCall (cb err (ctx w)).2 ++ []).
  unfold call_cb. simpl. rewrite app_nil_r, <- app_assoc. simpl.
  split; [done|]. split; [|rewrite hooks_called_calls, Nat.sub_diag; done].
  rewrite <- (app_nil_r (map _ _)). repeat constructor.
Qed.

(** The callback of [process.nextTick]. *)
Lemma steps_post_tick w : steps_post cb hooks w (call_cb cb VUndefined w).
Proof.
  split; [simpl; lia|]. split; [done|].
  exists (EvCb VUndefined :: map EvCall (cb VUndefined (ctx w)).2 ++ []).
  unfold call_cb. simpl. rewrite app_nil_r.
  split; [done|]. split; [|rewrite hooks_called_calls, Nat.sub_diag; done].
  rewrite <- (app_nil_r (map _ _)). repeat constructor.
Qed.

Lemma exec_steps_with invoke p : forall m w,
  steps_from cb hooks (S m) invoke -> m <= cur w ->
  exists w', exec cb hooks invoke p w = Some w' /\ steps_post cb hooks w w'.
Proof.
  induction p as [|k IH|f k IH|err k IH|later IHl k IHk];
    intros m w Hinv Hm; simpl.
  - exists w. split; [done|apply steps_post_refl].
  - eapply IH; eauto.
  - destruct (IH m (set_ctx (f (ctx w)) w) Hinv Hm) as (w' & -> & Hpost).
    by exists w'.
  - assert (exists w1, next_with cb hooks invoke err w = Some w1
                       /\ steps_post cb hooks w w1) as (w1 & -> & Hpost1).
    { unfold next_with. simpl.
      destruct (truthy err) eqn:Herr;
        [|destruct (hooks !! S (cur w)) as [h|] eqn:Hh].
      - eexists. split; [done|]. apply steps_post_next_stops.
      - apply lookup_lt_Some in Hh.
        destruct (Hinv h (log [EvHook (S (cur w))]
                            (set_cur (S (cur w)) (log [EvNext err] w))))
          as (w1 & -> & Hc & Hn & tr & Htr & Hst & Hh1); simpl; [lia|done|].
        exists w1. split; [done|]. simpl in *.
        split; [lia|]. split; [auto|].
        exists (EvNext err :: EvHook (S (cur w)) :: tr).
        rewrite Htr, <- !app_assoc. simpl. split; [done|].
        split; [by constructor|]. rewrite Hh1.
        replace (cur w1 - cur w) with (S (cur w1 - S (cur w))) by lia.
        done.
      - eexists. split; [done|]. apply steps_post_next_stops. }
    destruct (IH m w1 Hinv) as (w2 & -> & Hpost2).
    { destruct Hpost1 as (Hc & _). lia. }
    exists w2. split; [done|]. by eapply steps_post_trans.
  - destruct (IHk m (enqueue (TResume later) w) Hinv Hm)
      as (w' & -> & Hpost).
    by exists w'.
Qed.

Lemma call_hook_steps fuel :
  steps_from cb hooks (length hooks - fuel) (call_hook cb hooks fuel).
Proof.
  induction fuel as [|fuel IH]; intros h w Hm Hn.
  - lia.
  - simpl. apply exec_steps_with with (m := cur w); [|lia].
    intros h' w' Hm' Hn'. apply IH; [lia|done].
Qed.

(** With [fuel] at least the number of hooks after [cur], the body of a
    hook returns. *)
Lemma exec_steps fuel p w :
  length hooks <= S (cur w + fuel) ->
  exists w', exec cb hooks (call_hook cb hooks fuel) p w = Some w'
             /\ steps_post cb hooks w w'.
Proof.
  intros Hlen. apply exec_steps_with with (m := cur w); [|lia].
  intros h' w' Hm' Hn'. apply call_hook_steps; [lia|done].
Qed.

(** Every turn of the event loop returns. *)
Lemma tick_steps fuel i w :
  length hooks <= fuel ->
  exists w', tick cb hooks fuel i w = Some w' /\ steps_post cb hooks w w'.
Proof.
  intros Hfuel. unfold tick. destruct (queue w !! i) as [t|].
  2:{ exists w. split; [done|apply steps_post_refl]. }
  set (w0 := set_queue (delete i (queue w)) w).
  assert (forall w', steps_post cb hooks w0 w' -> steps_post cb hooks w w')
    as H0 by done.
  destruct t as [|p]; simpl.
  - eexists. split; [done|]. apply H0, steps_post_tick.
  - destruct (exec_steps fuel p w0) as (w' & -> & Hpost); [simpl; lia|].
    exists w'. split; [done|]. by apply H0.
Qed.

Lemma run_ticks_steps fuel sched : forall w,
  length hooks <= fuel ->
  exists w', run_ticks cb hooks fuel sched w = Some w'
             /\ steps_post cb hooks w w'.
Proof.
  induction sched as [|i sched IH]; intros w Hfuel; simpl.
  - exists w. split; [done|apply steps_post_refl].
  - destruct (tick_steps fuel i w Hfuel) as (w1 & -> & H1).
    destruct (IH w1 Hfuel) as (w2 & -> & H2).
    exists w2. split; [done|]. by eapply steps_post_trans.
Qed.

End AnyHooks.

(** ** Fuel *)

Section Fuel.

Variable cb : value -> Ctx -> Ctx * list Call.
Variable hooks : list Hook.

(** A call of [next] inside a hook: the closure [next], then the rest of
    the hook. *)
Lemma exec_next fuel err k w :
  exec cb hooks (call_hook cb hooks fuel) (HNext err k) w
  = match next cb hooks fuel err w with
    | Some w' => exec cb hooks (call_hook cb hooks fuel) k w'
    | None => None
    end.
Proof. reflexivity. Qed.

Lemma exec_invoke_mono (inv1 inv2 : Hook -> World -> option World) p :
  (forall h w w', inv1 h w = Some w' -> inv2 h w = Some w') ->
  forall w w', exec cb hooks inv1 p w = Some w' ->
               exec cb hooks inv2 p w = Some w'.
Proof.
  intros Hinv.
  induction p as [|k IH|f k IH|err k IH|later IHl k IHk];
    intros w w' Hrun; simpl in *; auto.
  destruct (next_with cb hooks inv1 err w) as [w1|] eqn:Hnext; [|done].
  assert (next_with cb hooks inv2 err w = Some w1) as ->; [|auto].
  unfold next_with in *. simpl in *.
  destruct (truthy err); [done|].
  destruct (hooks !! S (cur w)); [|done]. auto.
Qed.

(** A result does not depend on the fuel: more fuel gives the same. *)
Lemma call_hook_fuel_mono fuel : forall h w w',
  call_hook cb hooks fuel h w = Some w' ->
  call_hook cb hooks (S fuel) h w = Some w'.
Proof.
  induction fuel as [|fuel IH]; intros h w w' Hrun; [done|].
  simpl in *. eapply exec_invoke_mono; [|exact Hrun]. exact IH.
Qed.

End Fuel.

(** ** Executions with hooks that call [next] at most once *)

Section Linear.

Variable cb : value -> Ctx -> Ctx * list Call.
Variable hooks : list Hook.
Hypothesis hooks_once : Forall at_most_once hooks.

(** A hook body that never calls [next] returns, and leaves [cur] and
    the log as they are. *)
Lemma exec_no_next invoke p : forall w,
  no_next p ->
  exists c q,
    exec cb hooks invoke p w
      = Some (mkWorld c (cur w) (trace w) (queue w ++ q))
    /\ Forall quiet_task q.
Proof.
  induction p as [|k IH|f k IH|err k IH|later IHl k IHk];
    intros w Hp; simpl in *.
  - exists (ctx w), []. rewrite app_nil_r. by destruct w.
  - apply IH, Hp.
  - destruct (IH (set_ctx (f (ctx w)) w) Hp) as (c & q & -> & Hq).
    by exists c, q.
  - done.
  - destruct Hp as [Hl Hk].
    destruct (IHk (enqueue (TResume later) w) Hk) as (c & q & -> & Hq).
    exists c, (TResume later :: q). simpl. rewrite <- app_assoc.
    split; [done|]. by constructor.
Qed.

Lemma exec_linear_with invoke p : forall m w,
  linear_from hooks (S m) invoke -> m <= cur w -> at_most_once p ->
  exists w', exec cb hooks invoke p w = Some w' /\ linear_post hooks w w'.
Proof.
  induction p as [|k IH|f k IH|err k IH|later IHl k IHk];
    intros m w Hinv Hm Hp; simpl in *.
  - exists w. split; [done|]. exists [], (Some (cur w)), [].
    rewrite !app_nil_r. repeat split; auto. constructor.
  - eapply IH; eauto.
  - destruct (IH m (set_ctx (f (ctx w)) w) Hinv Hm Hp) as (w' & -> & Hpost).
    by exists w'.
  - unfold next_with. simpl.
    destruct (truthy err) eqn:Herr;
      [|destruct (hooks !! S (cur w)) as [h|] eqn:Hh].
    + set (w1 := call_cb cb err (log [EvNext err] w)).
      destruct (exec_no_next invoke k w1 Hp) as (c & q & -> & Hq).
      eexists. split; [done|].
      exists (EvNext err :: EvCb err
                :: map EvCall (cb err (ctx w)).2), None, q.
      simpl. rewrite <- app_assoc. repeat split; auto.
      apply chain_stop. by left.
    + set (w1 := log [EvHook (S (cur w))]
                   (set_cur (S (cur w)) (log [EvNext err] w))).
      destruct (Hinv h w1) as (w2 & -> & tr & st & q & Htr & Hq & Hch & Hst);
        simpl; [done|lia|].
      destruct (exec_no_next invoke k w2 Hp) as (c & q' & -> & Hq').
      eexists. split; [done|].
      exists (EvNext err :: EvHook (S (cur w)) :: tr), st, (q ++ q').
      simpl in *. rewrite Htr, Hq, <- !app_assoc. simpl.
      apply lookup_lt_Some in Hh.
      repeat split; auto.
      * by apply chain_step.
      * destruct st as [j|].
        -- destruct Hst as [Hj Hlin]. split; [done|].
           by apply linear_queue_app_quiet.
        -- by apply Forall_app.
    + set (w1 := call_cb cb err (log [EvNext err] w)).
      destruct (exec_no_next invoke k w1 Hp) as (c & q & -> & Hq).
      eexists. split; [done|].
      exists (EvNext err :: EvCb err
                :: map EvCall (cb err (ctx w)).2), None, q.
      simpl. rewrite <- app_assoc. repeat split; auto.
      apply chain_stop. right. by apply lookup_ge_None in Hh.
  - destruct Hp as [[Hl Hk]|[Hl Hk]].
    + destruct (exec_no_next invoke k (enqueue (TResume later) w) Hk)
        as (c & q & -> & Hq).
      eexists. split; [done|].
      exists [], (Some (cur w)), (TResume later :: q).
      simpl. rewrite app_nil_r, <- app_assoc.
      split; [done|]. split; [done|]. split; [constructor|].
      split; [done|]. by right.
    + destruct (IHk m (enqueue (TResume later) w) Hinv Hm Hk)
        as (w' & -> & tr & st & q & Htr & Hq & Hch & Hst).
      exists w'. split; [done|].
      exists tr, st, (TResume later :: q).
      simpl in *. rewrite Hq, <- app_assoc.
      repeat split; auto.
      destruct st as [j|].
      * destruct Hst as [Hj Hlin]. split; [done|]. simpl. by left.
      * by constructor.
Qed.

Lemma call_hook_linear fuel :
  linear_from hooks (length hooks - fuel) (call_hook cb hooks fuel).
Proof.
  induction fuel as [|fuel IH]; intros h w Hh Hm.
  - apply lookup_lt_Some in Hh. lia.
  - simpl. apply exec_linear_with with (m := cur w); [|lia|].
    + intros h' w' Hh' Hm'. apply IH; [done|lia].
    + eapply Forall_lookup_1; eauto.
Qed.

Lemma exec_linear fuel p w :
  length hooks <= S (cur w + fuel) -> at_most_once p ->
  exists w', exec cb hooks (call_hook cb hooks fuel) p w = Some w'
             /\ linear_post hooks w w'.
Proof.
  intros Hlen Hp. apply exec_linear_with with (m := cur w); [|lia|done].
  intros h' w' Hh' Hm'. apply call_hook_linear; [done|lia].
Qed.

(** A turn of the event loop keeps the chain. *)
Lemma tick_chain_inv fuel i w :
  length hooks <= fuel -> chain_inv hooks w ->
  exists w', tick cb hooks fuel i w = Some w' /\ chain_inv hooks w'.
Proof.
  intros Hfuel (tr & st & Htr & Hch & Hst). unfold tick.
  destruct (queue w !! i) as [t|] eqn:Hi.
  2:{ exists w. split; [done|]. by exists tr, st. }
  set (w0 := set_queue (delete i (queue w)) w).
  assert (quiet_task t -> Forall quiet_task (queue w0) \/
            (exists j, st = Some j /\ cur w = j /\ linear_queue (queue w0)) ->
          exists w', run_task cb hooks fuel t w0 = Some w'
                     /\ chain_inv hooks w') as Hquiet.
  { intros Ht Hrest. destruct t as [|p]; [done|]. simpl in *.
    destruct (exec_no_next (call_hook cb hooks fuel) p w0 Ht)
      as (c & q & -> & Hq).
    eexists. split; [done|]. exists tr, st. simpl.
    split; [done|]. split; [done|].
    destruct Hrest as [Hall|(j & -> & Hj & Hlin)].
    - destruct st as [j|].
      + destruct Hst as [Hj _]. split; [done|].
        apply quiet_linear_queue. by apply Forall_app.
      + by apply Forall_app.
    - split; [done|]. by apply linear_queue_app_quiet. }
  destruct st as [j|].
  - destruct Hst as [Hj Hlin].
    destruct (linear_queue_pick _ _ _ Hlin Hi) as [[Ht Hq]|[Ht Hq]].
    + apply Hquiet; [done|]. right. by exists j.
    + destruct t as [|p]; [done|]. simpl in *.
      destruct (exec_linear fuel p w0) as
        (w' & -> & tr' & st' & q & Htr' & Hq' & Hch' & Hst');
        [simpl; lia|done|].
      exists w'. split; [done|].
      exists (tr ++ tr'), st'. simpl in *.
      rewrite Htr', Htr. simpl.
      split; [done|]. split.
      * eapply chain_app; [exact Hch|]. by rewrite <- Hj.
      * rewrite Hq'. destruct st' as [j'|].
        -- destruct Hst' as [Hj' Hlin']. split; [done|].
           by apply linear_queue_quiet_app.
        -- by apply Forall_app.
  - apply Hquiet.
    + eapply Forall_lookup_1; eauto.
    + left. by apply Forall_delete.
Qed.

Lemma run_ticks_chain_inv fuel sched : forall w,
  length hooks <= fuel -> chain_inv hooks w ->
  exists w', run_ticks cb hooks fuel sched w = Some w' /\ chain_inv hooks w'.
Proof.
  induction sched as [|i sched IH]; intros w Hfuel Hinv; simpl.
  - by exists w.
  - destruct (tick_chain_inv fuel i w Hfuel Hinv) as (w1 & -> & Hinv1).
    by apply IH.
Qed.

End Linear.

(** ** Executions with hooks that call [next] before they return *)

Section Sync.

Variable cb : value -> Ctx -> Ctx * list Call.
Variable hooks : list Hook.
Hypothesis hooks_sync : Forall sync_next hooks.

Lemma sync_post_then w1 w2 w3 :
  sync_post cb hooks w1 w2 -> steps_post cb hooks w2 w3 ->
  sync_post cb hooks w1 w3.
Proof.
  intros [He Hc] He'. split; [by eapply steps_post_trans|].
  apply steps_post_count_cb in He'. lia.
Qed.

Lemma sync_post_next_stops err w :
  sync_post cb hooks w (call_cb cb err (log [EvNext err] w)).
Proof.
  split; [apply steps_post_next_stops|].
  unfold call_cb. simpl. rewrite !count_app. simpl. lia.
Qed.

Lemma exec_sync_with invoke p : forall m w,
  steps_from cb hooks (S m) invoke -> sync_from cb hooks (S m) invoke ->
  m <= cur w -> sync_next p ->
  exists w', exec cb hooks invoke p w = Some w' /\ sync_post cb hooks w w'.
Proof.
  induction p as [|k IH|f k IH|err k IH|later IHl k IHk];
    intros m w Htot Hinv Hm Hp; simpl in *.
  - done.
  - eapply IH; eauto.
  - destruct (IH m (set_ctx (f (ctx w)) w) Htot Hinv Hm Hp)
      as (w' & -> & Hpost).
    by exists w'.
  - assert (exists w1, next_with cb hooks invoke err w = Some w1
                       /\ sync_post cb hooks w w1) as (w1 & -> & Hpost1).
    { unfold next_with. simpl.
      destruct (truthy err) eqn:Herr;
        [|destruct (hooks !! S (cur w)) as [h|] eqn:Hh].
      - eexists. split; [done|]. apply sync_post_next_stops.
      - set (w0 := log [EvHook (S (cur w))]
                     (set_cur (S (cur w)) (log [EvNext err] w))).
        destruct (Hinv h w0)
          as (w1 & -> & (Hc & Hn & tr & Htr & Hst & Hh1) & Hcount);
          simpl; [done|lia|].
        exists w1. split; [done|]. simpl in *.
        apply lookup_lt_Some in Hh.
        split.
        + split; [lia|]. split; [auto|].
          exists (EvNext err :: EvHook (S (cur w)) :: tr).
          rewrite Htr, <- !app_assoc. simpl. split; [done|].
          split; [by constructor|]. rewrite Hh1.
          replace (cur w1 - cur w) with (S (cur w1 - S (cur w))) by lia.
          done.
        + rewrite !count_app in Hcount. simpl in Hcount. lia.
      - eexists. split; [done|]. apply sync_post_next_stops. }
    destruct (exec_steps_with cb hooks invoke k m w1 Htot)
      as (w2 & -> & Hpost2).
    { destruct Hpost1 as [(Hc & _) _]. lia. }
    exists w2. split; [done|]. by eapply sync_post_then.
  - destruct (IHk m (enqueue (TResume later) w) Htot Hinv Hm Hp)
      as (w' & -> & Hpost).
    by exists w'.
Qed.

Lemma call_hook_sync fuel :
  sync_from cb hooks (length hooks - fuel) (call_hook cb hooks fuel).
Proof.
  induction fuel as [|fuel IH]; intros h w Hh Hm.
  - apply lookup_lt_Some in Hh. lia.
  - simpl. apply exec_sync_with with (m := cur w); [| |lia|].
    + intros h' w' Hm' Hn'. apply call_hook_steps; [lia|done].
    + intros h' w' Hh' Hm'. apply IH; [done|lia].
    + eapply Forall_lookup_1; eauto.
Qed.

End Sync.

(** ** Registration and runs *)

(** [before] appends: hooks registered one after the other come out in
    that order, when the name is stored already or is not inherited. *)
Lemma chain_of_before_all action hs : forall b,
  is_Some (hooks_of b !! action) \/ inherited action = false ->
  chain_of (before_all action hs b) action = chain_of b action ++ hs.
Proof.
  induction hs as [|h hs IH]; intros b Hok; simpl.
  - by rewrite app_nil_r.
  - destruct (hooks_of b !! action) as [hs0|] eqn:Hb.
    + rewrite IH by (left; simpl; rewrite lookup_insert_eq; by eexists).
      unfold chain_of at 1. simpl. rewrite lookup_insert_eq.
      unfold chain_of. rewrite Hb. by rewrite <- app_assoc.
    + destruct Hok as [[? Hsome]|Hinh]; [done|]. rewrite Hinh.
      rewrite IH by (left; simpl; rewrite lookup_insert_eq; by eexists).
      unfold chain_of at 1. simpl. rewrite lookup_insert_eq.
      unfold chain_of. by rewrite Hb.
Qed.

(** For an inherited name that is not stored, [before] throws and the
    hooks are as they were. *)
Lemma before_all_inherited action hs b :
  hooks_of b !! action = None -> inherited action = true ->
  before_all action hs b = b.
Proof.
  intros Hb Hinh. induction hs as [|h hs IH]; simpl; [done|].
  by rewrite Hb, Hinh.
Qed.

Lemma trigger_chain_of b action cb fuel w :
  trigger b action cb fuel w =
  match chain_of b action with
  | h0 :: _ =>
      call_hook cb (chain_of b action) fuel h0 (log [EvHook 0] (set_cur 0 w))
  | [] => Some (enqueue TCallback w)
  end.
Proof.
  unfold trigger, chain_of.
  destruct (hooks_of b !! action) as [[|h0 hs]|]; reflexivity.
Qed.

(** A run of any chain of hooks returns, for every schedule. *)
Lemma run_steps b action cb sched w h0 hs :
  chain_of b action = h0 :: hs ->
  exists w', run b action cb sched w = Some w' /\
    steps_post cb (h0 :: hs) (log [EvHook 0] (set_cur 0 w)) w'.
Proof.
  intros Hb. unfold run. rewrite trigger_chain_of, Hb.
  set (hooks := h0 :: hs).
  set (w0 := log [EvHook 0] (set_cur 0 w)).
  change (call_hook cb hooks (length hooks) h0 w0)
    with (exec cb hooks (call_hook cb hooks (length hs)) h0 w0).
  destruct (exec_steps cb hooks (length hs) h0 w0) as (w1 & -> & H1);
    [simpl; lia|].
  destruct (run_ticks_steps cb hooks (length hooks) sched w1)
    as (w2 & -> & H2); [done|].
  exists w2. split; [done|]. by eapply steps_post_trans.
Qed.

(** Every run returns, and its log has the shape [steps]. *)
Lemma run_log b action cb sched w :
  exists w' tr, run b action cb sched w = Some w' /\
    trace w' = trace w ++ tr /\ steps cb tr.
Proof.
  destruct (chain_of b action) as [|h0 hs] eqn:Hb.
  - unfold run. rewrite trigger_chain_of, Hb. simpl.
    destruct (run_ticks_steps cb [] 0 sched (enqueue TCallback w))
      as (w' & -> & _ & _ & tr & Htr & Hst & _); [done|].
    by exists w', tr.
  - destruct (run_steps b action cb sched w h0 hs Hb)
      as (w' & -> & _ & _ & tr & Htr & Hst & _).
    exists w', (EvHook 0 :: tr). simpl in Htr.
    rewrite Htr, <- app_assoc. split; [done|]. split; [done|].
    by constructor.
Qed.

(** A run of a chain of hooks that call [next] at most once each, from
    the arrival of the action: the log is the call of hook 0 followed by a
    chain. *)
Lemma run_chain b action cb sched c h0 hs :
  chain_of b action = h0 :: hs ->
  Forall at_most_once (h0 :: hs) ->
  exists w' tr st,
    run b action cb sched (world_of c) = Some w' /\
    trace w' = EvHook 0 :: tr /\
    chain (length (h0 :: hs)) 0 tr st.
Proof.
  intros Hb Hall. unfold run. rewrite trigger_chain_of, Hb.
  set (hooks := h0 :: hs).
  set (w0 := log [EvHook 0] (set_cur 0 (world_of c))).
  change (call_hook cb hooks (length hooks) h0 w0)
    with (exec cb hooks (call_hook cb hooks (length hs)) h0 w0).
  destruct (exec_linear cb hooks Hall (length hs) h0 w0)
    as (w1 & -> & tr & st & q & Htr & Hq & Hch & Hst).
  { simpl. lia. }
  { by inversion Hall. }
  assert (chain_inv hooks w1) as Hinv.
  { exists tr, st. simpl in *. rewrite Hq. simpl.
    split; [done|]. split; [done|].
    destruct st as [j|]; [|done].
    destruct Hst as [Hj Hlin]. by split. }
  destruct (run_ticks_chain_inv cb hooks Hall (length hooks) sched w1)
    as (w2 & -> & tr2 & st2 & Htr2 & Hch2 & _); [done|done|].
  by exists w2, tr2, st2.
Qed.

Lemma run_ticks_empty_queue cb hooks fuel sched : forall w,
  queue w = [] -> run_ticks cb hooks fuel sched w = Some w.
Proof.
  induction sched as [|i sched IH]; intros w Hq; simpl; [done|].
  unfold tick. rewrite Hq. simpl. by apply IH.
Qed.

(** The body of a hook that writes and calls [next(v)], in a chain of
    such hooks: it does what the loop does. *)
Lemma exec_stepping cb hooks rest : forall st pre w fuel,
  hooks = step_hook <$> (pre ++ st :: rest) ->
  cur w = length pre -> length rest <= fuel ->
  exec cb hooks (call_hook cb hooks fuel) (step_hook st) w
  = Some (mkWorld
            (hook_loop cb (cur w) (ctx w) (st :: rest)).1
            (cur w + count is_hook
                       (hook_loop cb (cur w) (ctx w) (st :: rest)).2)
            (trace w ++ (hook_loop cb (cur w) (ctx w) (st :: rest)).2)
            (queue w)).
Proof.
  induction rest as [|st' rest IH]; intros st pre w fuel Hhooks Hcur Hfuel.
  - unfold step_hook. simpl. unfold next_with. simpl.
    rewrite (lookup_ge_None_2 hooks (S (cur w))).
    2:{ rewrite Hhooks, length_fmap, length_app. simpl. lia. }
    unfold call_cb, log, set_ctx. simpl.
    destruct (truthy st.2); simpl;
      by rewrite count_calls_hook, Nat.add_0_r, <- app_assoc.
  - unfold step_hook. cbn [exec hook_loop]. unfold next_with.
    cbn [cur log set_ctx].
    destruct (truthy st.2) eqn:Hv.
    + unfold call_cb, log, set_ctx. simpl.
      by rewrite count_calls_hook, Nat.add_0_r, <- app_assoc.
    + assert (hooks !! S (cur w) = Some (step_hook st')) as ->.
      { rewrite Hhooks, list_lookup_fmap, Hcur, lookup_app_r by lia.
        replace (S (length pre) - length pre) with 1 by lia. done. }
      destruct fuel as [|fuel]; [simpl in Hfuel; lia|].
      cbn [call_hook].
      rewrite (IH st' (pre ++ [st]) _ fuel).
      * simpl. f_equal. f_equal; [lia|].
        by rewrite <- !app_assoc.
      * by rewrite Hhooks, <- app_assoc.
      * simpl. rewrite length_app, Hcur. simpl. lia.
      * simpl in Hfuel. lia.
Qed.

(** A run of a chain of hooks that write and call [next(v)] is the run
    of the loop, whatever the schedule: nothing is left for later. *)
Lemma run_stepping b action cb sched c st0 rest :
  chain_of b action = step_hook <$> (st0 :: rest) ->
  run b action cb sched (world_of c)
  = Some (mkWorld
            (hook_loop cb 0 c (st0 :: rest)).1
            (count is_hook (hook_loop cb 0 c (st0 :: rest)).2)
            (EvHook 0 :: (hook_loop cb 0 c (st0 :: rest)).2)
            []).
Proof.
  intros Hb. unfold run. rewrite trigger_chain_of, !Hb, length_fmap.
  pose proof (exec_stepping cb (step_hook <$> (st0 :: rest)) rest st0 []
                (log [EvHook 0] (set_cur 0 (world_of c))) (length rest)
                eq_refl eq_refl (le_n _)) as Hexec.
  cbn [fmap list_fmap length call_hook] in *.
  rewrite Hexec. by apply run_ticks_empty_queue.
Qed.

(** A run of a chain of hooks that call [next] before they return has
    completed when [trigger] returns, and stays so. *)
Lemma run_sync_completes b action cb sched w h0 hs :
  chain_of b action = h0 :: hs ->
  Forall sync_next (h0 :: hs) ->
  exists w', run b action cb sched w = Some w' /\
    count is_cb (trace w) < count is_cb (trace w').
Proof.
  intros Hb Hall. unfold run. rewrite trigger_chain_of, Hb.
  set (hooks := h0 :: hs).
  set (w0 := log [EvHook 0] (set_cur 0 w)).
  destruct (call_hook_sync cb hooks Hall (length hooks) h0 w0)
    as (w1 & -> & _ & Hcount); [done|simpl; lia|].
  destruct (run_ticks_steps cb hooks (length hooks) sched w1)
    as (w2 & -> & H2); [done|].
  exists w2. split; [done|].
  apply steps_post_count_cb in H2.
  unfold w0 in Hcount. simpl in Hcount. rewrite count_app in Hcount.
  simpl in Hcount. lia.
Qed.

Lemma eqb_connect action :
  action <> "connect" -> String.eqb action "connect" = false.
Proof. intros H. by apply String.eqb_neq. Qed.

(** The calls on the client are made with [done] as their callback. *)
Lemma dispatch_gets_done b action v c0 call k :
  call ∈ (on_hooks_done b action v c0).2 ->
  dispatch_callback call = Some k -> k = KDone action.
Proof.
  unfold on_hooks_done, done. simpl.
  repeat match goal with
         | |- context [if ?b then _ else _] => destruct b
         end; simpl;
    intros Hin Hk;
    repeat (apply elem_of_cons in Hin as [->|Hin]; simpl in Hk;
            [congruence|]);
    by apply elem_of_nil in Hin.
Qed.

(** * The claims *)

(** ** The listener of an action *)

(** C1, as the code has it: when the hook pipeline of an action other
    than connect completes with an error, the listener stores the error in
    [ctx.error] and calls [connection.onError(action, ctx, err)]; this is
    its only call: it dispatches nothing upstream and does not call the
    acknowledgement itself. *)
Theorem hook_error_goes_to_onError b action err c :
  action <> "connect" -> truthy err = true ->
  on_hooks_done b action err c
    = (set_error err c, [ConnOnError action (set_error err c) err]) /\
  count is_ack (on_hooks_done b action err c).2 = 0 /\
  count is_dispatch (on_hooks_done b action err c).2 = 0.
Proof.
  intros Hne Herr.
  assert (on_hooks_done b action err c
          = (set_error err c, [ConnOnError action (set_error err c) err]))
    as Heq.
  { unfold on_hooks_done. by rewrite (eqb_connect action Hne), Herr. }
  rewrite Heq. simpl. auto.
Qed.

Lemma hook_error_goes_to_onError_witness :
  on_hooks_done new_Bridge "publish" an_error publish_ctx
    = (set_error an_error publish_ctx,
       [ConnOnError "publish" (set_error an_error publish_ctx) an_error]) /\
  count is_ack (on_hooks_done new_Bridge "publish" an_error publish_ctx).2 = 0 /\
  count is_dispatch (on_hooks_done new_Bridge "publish" an_error publish_ctx).2 = 0.
Proof.
  apply (hook_error_goes_to_onError new_Bridge "publish" an_error publish_ctx).
  - discriminate.
  - reflexivity.
Defined.

(** C1 as stated fails: a publish whose only hook calls [next] with an
    error.  The error handler is called, the acknowledgement is not, and
    nothing is left pending that could call it. *)
Lemma hook_error_is_not_acknowledged :
  let b := before_all "publish" [HNext an_error HReturn]
             (init_hooks new_Bridge) in
  exists w',
    deliver b 1 (ConnectionEvent "publish") (world_of publish_ctx) = Some w' /\
    trace w' = [EvHook 0; EvNext an_error; EvCb an_error;
                EvCall (ConnOnError "publish"
                          (set_error an_error publish_ctx) an_error)] /\
    queue w' = [] /\
    count is_ack (calls_of (trace w')) = 0 /\
    ~ error_then_ack "publish" an_error (calls_of (trace w')).
Proof.
  eexists. split; [vm_compute; reflexivity|]. simpl.
  repeat split; auto.
  intros (c & c' & k & pre & mid & post & Heq).
  apply (f_equal length) in Heq. rewrite !length_app in Heq. simpl in Heq.
  rewrite length_app in Heq. simpl in Heq. lia.
Qed.

(** C2: for a connect action, whatever error the hook pipeline completes
    with and whatever the hooks wrote in the context, the listener calls
    the acknowledgement with the action and the context and nothing else.
    So in a whole run of a connect action, for all hooks and all schedules,
    every call the bridge makes is this acknowledgement, one for each
    completion of the pipeline; no call on the client is ever made. *)
Theorem connect_acks_and_never_dispatches b err c sched w :
  on_hooks_done b "connect" err c
    = (set_error err c, [ConnAck "connect" (set_error err c) KAck]) /\
  exists w' tr,
    run b "connect" (on_hooks_done b "connect") sched w = Some w' /\
    trace w' = trace w ++ tr /\
    Forall (fun call => exists c', call = ConnAck "connect" c' KAck)
      (calls_of tr) /\
    count is_client (calls_of tr) = 0 /\
    count is_ack (calls_of tr) = count is_cb tr.
Proof.
  split; [reflexivity|].
  destruct (run_log b "connect" (on_hooks_done b "connect") sched w)
    as (w' & tr & Hrun & Htr & Hst).
  exists w', tr. split; [done|]. split; [done|]. split; [|split].
  - apply (steps_calls (on_hooks_done b "connect")); [|done].
    intros err' c0. constructor; [by eexists|constructor].
  - by rewrite (steps_count (on_hooks_done b "connect") is_client 0 tr).
  - rewrite (steps_count (on_hooks_done b "connect") is_ack 1 tr); [lia| |done].
    reflexivity.
Qed.

(** C3: when the hook pipeline of a publish, subscribe or unsubscribe
    completes without error and the context has [authorized === false] or
    a true [reject], the listener makes no call on the client and calls the
    acknowledgement with the action and the context. *)
Theorem rejected_action_is_acked_not_dispatched b action err c :
  action ∈ ["publish"; "subscribe"; "unsubscribe"] ->
  truthy err = false ->
  ctx_authorized c = VBool false \/ truthy (ctx_reject c) = true ->
  on_hooks_done b action err c
    = (set_error err c, [ConnAck action (set_error err c) KAck]) /\
  count is_client (on_hooks_done b action err c).2 = 0 /\
  count is_ack (on_hooks_done b action err c).2 = 1.
Proof.
  intros Hin Herr Hflag.
  assert (action <> "connect") as Hne.
  { intros ->. repeat (apply elem_of_cons in Hin as [Hin|Hin];
                       [discriminate|]).
    by apply elem_of_nil in Hin. }
  assert (on_hooks_done b action err c
          = (set_error err c, [ConnAck action (set_error err c) KAck]))
    as Heq.
  { unfold on_hooks_done. rewrite (eqb_connect action Hne), Herr. simpl.
    destruct Hflag as [-> | ->]; simpl; [done|].
    by rewrite orb_true_r. }
  rewrite Heq. simpl. auto.
Qed.

Lemma rejected_action_is_acked_not_dispatched_witness :
  let c := set_reject (VBool true) publish_ctx in
  on_hooks_done new_Bridge "publish" VUndefined c
    = (set_error VUndefined c, [ConnAck "publish" (set_error VUndefined c) KAck])
  /\ count is_client (on_hooks_done new_Bridge "publish" VUndefined c).2 = 0
  /\ count is_ack (on_hooks_done new_Bridge "publish" VUndefined c).2 = 1.
Proof.
  apply (rejected_action_is_acked_not_dispatched new_Bridge "publish" VUndefined
           (set_reject (VBool true) publish_ctx)).
  - apply elem_of_cons. by left.
  - reflexivity.
  - right. reflexivity.
Defined.

(** ** The hook pipeline *)




(** The run of [three_hooks]: the second hook fails in a later turn, the
    third hook is never called. *)
Example three_hooks_run :
  let b := before_all "publish" three_hooks (init_hooks new_Bridge) in
  trace <$> run b "publish" (on_hooks_done b "publish") [0]
              (world_of publish_ctx)
  = Some [EvHook 0; EvNext VUndefined; EvHook 1; EvNext an_error;
          EvCb an_error;
          EvCall (ConnOnError "publish"
                    (set_error an_error
                       (set_authorized (VBool true) publish_ctx))
                    an_error)].
Proof. vm_compute. reflexivity. Qed.

(** C8 as stated fails.  A hook that calls [next()] twice: when it is the
    only hook, the completion callback is called twice (and the publish is
    dispatched twice); when two hooks are registered after it, its two calls
    advance the chain twice, to hook 1 and to hook 2. *)
Lemma next_is_not_single_use :
  let b1 := before_all "publish" [hook_twice] (init_hooks new_Bridge) in
  let b3 := before_all "publish" [hook_twice; HReturn; HReturn]
              (init_hooks new_Bridge) in
  (exists w',
     run b1 "publish" (on_hooks_done b1 "publish") []
       (world_of publish_ctx) = Some w' /\
     trace w' = [EvHook 0;
                 EvNext VUndefined; EvCb VUndefined;
                 EvCall (ClientPublish (VStr "t1") (VStr "m1") (VObj [])
                           (KDone "publish"));
                 EvNext VUndefined; EvCb VUndefined;
                 EvCall (ClientPublish (VStr "t1") (VStr "m1") (VObj [])
                           (KDone "publish"))] /\
     count is_cb (trace w') = 2 /\
     ~ count is_cb (trace w') <= 1) /\
  (exists w',
     run b3 "publish" (on_hooks_done b3 "publish") []
       (world_of publish_ctx) = Some w' /\
     trace w' = [EvHook 0; EvNext VUndefined; EvHook 1;
                 EvNext VUndefined; EvHook 2]).
Proof.
  split.
  - eexists. split; [vm_compute; reflexivity|]. simpl.
    repeat split; auto. lia.
  - eexists. split; [vm_compute; reflexivity|]. reflexivity.
Qed.

(** C8, as the code has it: [next] has no guard against a second call;
    every call is processed.  When every hook of the chain calls [next] at
    most once, then in every run the completion callback is called at most
    once, and the chain advances at most once per hook called: there are
    never more calls of [next] than hooks called. *)
Theorem next_once_completes_once b action h0 hs cb sched c :
  chain_of b action = h0 :: hs ->
  Forall at_most_once (h0 :: hs) ->
  exists w',
    run b action cb sched (world_of c) = Some w' /\
    count is_cb (trace w') <= 1 /\
    count is_next (trace w') <= count is_hook (trace w').
Proof.
  intros Hb Hall.
  destruct (run_chain b action cb sched c h0 hs Hb Hall)
    as (w' & tr & st & Hrun & Htr & Hch).
  exists w'. split; [done|]. rewrite Htr. simpl.
  rewrite (chain_count_cb _ _ _ _ Hch), (chain_count_next _ _ _ _ Hch).
  destruct st; lia.
Qed.

Lemma next_once_completes_once_witness :
  let b := before_all "publish" three_hooks (init_hooks new_Bridge) in
  exists w',
    run b "publish" (on_hooks_done b "publish") [0] (world_of publish_ctx)
      = Some w' /\
    count is_cb (trace w') <= 1 /\
    count is_next (trace w') <= count is_hook (trace w').
Proof.
  apply (next_once_completes_once
           (before_all "publish" three_hooks (init_hooks new_Bridge))
           "publish" hook_allow [hook_deny_later; hook_pass]
           (on_hooks_done
              (before_all "publish" three_hooks (init_hooks new_Bridge))
              "publish")
           [0] publish_ctx).
  - vm_compute. reflexivity.
  - repeat constructor; simpl; auto.
Defined.

(** C7: when no hook is registered for the action, [trigger] only hands
    the callback to [process.nextTick]: it returns with the log as it was,
    so the callback is not called inside the call of [trigger], and with
    exactly one more piece of pending work; the turn that runs it calls the
    callback with no error. *)
Theorem no_hooks_completes_on_next_tick b action cb fuel w :
  chain_of b action = [] ->
  trigger b action cb fuel w = Some (enqueue TCallback w) /\
  trace (enqueue TCallback w) = trace w /\
  queue (enqueue TCallback w) = queue w ++ [TCallback] /\
  tick cb (chain_of b action) fuel (length (queue w)) (enqueue TCallback w)
    = Some (call_cb cb VUndefined w) /\
  trace (call_cb cb VUndefined w)
    = trace w ++ EvCb VUndefined :: map EvCall (cb VUndefined (ctx w)).2 /\
  truthy VUndefined = false.
Proof.
  intros Hb. rewrite trigger_chain_of, Hb.
  repeat split; auto.
  unfold tick, enqueue. simpl.
  rewrite list_lookup_middle by done. simpl.
  rewrite delete_middle, app_nil_r. by destruct w.
Qed.

Lemma no_hooks_completes_on_next_tick_witness :
  let b := init_hooks new_Bridge in
  let cb := on_hooks_done b "publish" in
  let w := world_of publish_ctx in
  trigger b "publish" cb 0 w = Some (enqueue TCallback w) /\
  trace (enqueue TCallback w) = trace w /\
  queue (enqueue TCallback w) = queue w ++ [TCallback] /\
  tick cb (chain_of b "publish") 0 (length (queue w)) (enqueue TCallback w)
    = Some (call_cb cb VUndefined w) /\
  trace (call_cb cb VUndefined w)
    = trace w ++ EvCb VUndefined :: map EvCall (cb VUndefined (ctx w)).2 /\
  truthy VUndefined = false.
Proof.
  apply (no_hooks_completes_on_next_tick (init_hooks new_Bridge) "publish"
           (on_hooks_done (init_hooks new_Bridge) "publish") 0
           (world_of publish_ctx)).
  vm_compute. reflexivity.
Defined.

(** A publish with no hooks: nothing happens inside the call of the
    listener; the next turn dispatches the publish to the client. *)
Example publish_without_hooks :
  let b := init_hooks new_Bridge in
  trace <$> deliver b 0 (ConnectionEvent "publish") (world_of publish_ctx)
    = Some [] /\
  trace <$> run b "publish" (on_hooks_done b "publish") [0]
              (world_of publish_ctx)
    = Some [EvCb VUndefined;
            EvCall (ClientPublish (VStr "t1") (VStr "m1") (VObj [])
                      (KDone "publish"))].
Proof. split; vm_compute; reflexivity. Qed.



(** The run of [two_sync_hooks]: both hooks are called and the subscribe,
    rejected by the second, is acknowledged before [trigger] returns. *)
Example two_sync_hooks_run :
  let b := before_all "subscribe" two_sync_hooks (init_hooks new_Bridge) in
  trace <$> trigger b "subscribe" (on_hooks_done b "subscribe") 2
              (world_of empty_ctx)
  = Some [EvHook 0; EvNext VUndefined; EvHook 1; EvNext VUndefined;
          EvCb VUndefined;
          EvCall (ConnAck "subscribe"
                    (set_error VUndefined
                       (set_reject (VBool true) empty_ctx))
                    KAck)].
Proof. vm_compute. reflexivity. Qed.

(** ** Completion of a dispatch and of an acknowledgement *)

(** C5 as stated fails on a bridge that has no listener of its error
    events, which is how the constructor leaves it.  The publish is
    dispatched with [done]; the client reports an error; the emission of
    the error event throws, and neither [client.end()] nor the
    acknowledgement of the action is called. *)
Lemma dispatch_error_without_listener_throws :
  let b := init_hooks new_Bridge in
  let c := set_error VUndefined publish_ctx in
  let call := ClientPublish (VStr "t1") (VStr "m1") (VObj [])
                (KDone "publish") in
  listening b = false /\
  call ∈ (on_hooks_done b "publish" VUndefined publish_ctx).2 /\
  dispatch_callback call = Some (KDone "publish") /\
  truthy an_error = true /\
  invoke b (KDone "publish") c an_error
    = ([BridgeEmit "error" an_error], Threw) /\
  count is_end (invoke b (KDone "publish") c an_error).1 = 0 /\
  count is_ack (invoke b (KDone "publish") c an_error).1 = 0.
Proof.
  split; [reflexivity|]. split; [vm_compute; apply elem_of_cons; by left|].
  repeat split.
Qed.

(** C5, as the code has it: every call on the client (publish, subscribe,
    unsubscribe) is made with [done] as its completion callback; when the
    client calls it with an error, the bridge first emits one error event
    with this error.  On a bridge with a listener of its error events the
    emission returns, and the bridge then calls [client.end()] once and the
    acknowledgement of the action with the context once; these are all its
    calls, and the callback returns.  On a bridge without such a listener
    the emission throws: it is the only call, and the callback throws. *)
Theorem dispatch_error_emits_ends_then_acks b action v c0 call k c err :
  call ∈ (on_hooks_done b action v c0).2 ->
  dispatch_callback call = Some k ->
  truthy err = true ->
  invoke b k c err
    = (if listening b
       then ([BridgeEmit "error" err; ClientEnd; ConnAck action c KAck],
             Returned)
       else ([BridgeEmit "error" err], Threw)) /\
  count is_emit (invoke b k c err).1 = 1 /\
  count is_end (invoke b k c err).1 = (if listening b then 1 else 0) /\
  count is_ack (invoke b k c err).1 = (if listening b then 1 else 0).
Proof.
  intros Hin Hk Herr.
  rewrite (dispatch_gets_done b action v c0 call k Hin Hk).
  simpl. unfold done, error, emit_error. rewrite Herr.
  destruct (listening b); simpl; auto.
Qed.

Lemma dispatch_error_emits_ends_then_acks_witness :
  let b := on_error (init_hooks new_Bridge) in
  let c := set_error VUndefined publish_ctx in
  invoke b (KDone "publish") c an_error
    = ([BridgeEmit "error" an_error; ClientEnd; ConnAck "publish" c KAck],
       Returned) /\
  count is_emit (invoke b (KDone "publish") c an_error).1 = 1 /\
  count is_end (invoke b (KDone "publish") c an_error).1 = 1 /\
  count is_ack (invoke b (KDone "publish") c an_error).1 = 1.
Proof.
  apply (dispatch_error_emits_ends_then_acks
           (on_error (init_hooks new_Bridge)) "publish" VUndefined
           publish_ctx
           (ClientPublish (VStr "t1") (VStr "m1") (VObj [])
              (KDone "publish"))
           (KDone "publish") (set_error VUndefined publish_ctx) an_error).
  - vm_compute. apply elem_of_cons. by left.
  - reflexivity.
  - reflexivity.
Defined.

(** C6: every acknowledgement call made by [done] hands the connection
    the same callback; when the connection calls it with an error, the
    bridge calls [connection.close()] once and emits one error event with
    this error; these are all its calls: nothing is retried. *)
Theorem ack_error_closes_and_emits b action c0 err0 call k c err :
  call ∈ (done b action c0 err0).1 ->
  ack_callback_of call = Some k ->
  truthy err = true ->
  invoke b k c err
    = ([ConnClose; BridgeEmit "error" err],
       if listening b then Returned else Threw) /\
  count is_emit (invoke b k c err).1 = 1 /\
  count is_close (invoke b k c err).1 = 1 /\
  count is_ack (invoke b k c err).1 = 0 /\
  count is_client (invoke b k c err).1 = 0.
Proof.
  intros Hin Hk Herr.
  assert (k = KAck) as ->.
  { unfold done, error, emit_error, and_then, one_call, skip in Hin.
    destruct (truthy err0), (listening b); simpl in Hin;
      repeat (apply elem_of_cons in Hin as [->|Hin]; simpl in Hk;
              [congruence|]);
      by apply elem_of_nil in Hin. }
  simpl. unfold ack_callback, error, emit_error. rewrite Herr.
  destruct (listening b); simpl; auto.
Qed.

Lemma ack_error_closes_and_emits_witness :
  let b := on_error (init_hooks new_Bridge) in
  invoke b KAck publish_ctx an_error
    = ([ConnClose; BridgeEmit "error" an_error], Returned) /\
  count is_emit (invoke b KAck publish_ctx an_error).1 = 1 /\
  count is_close (invoke b KAck publish_ctx an_error).1 = 1 /\
  count is_ack (invoke b KAck publish_ctx an_error).1 = 0 /\
  count is_client (invoke b KAck publish_ctx an_error).1 = 0.
Proof.
  apply (ack_error_closes_and_emits (on_error (init_hooks new_Bridge))
           "publish" publish_ctx VUndefined
           (ConnAck "publish" publish_ctx KAck) KAck publish_ctx an_error).
  - vm_compute. apply elem_of_cons. by left.
  - reflexivity.
  - reflexivity.
Defined.

(** ** Messages from the client *)

(** C9: on a message event of the client with [(topic, message, options)]
    the bridge makes one call, [connection.publish] with the same three
    values, whatever hooks are registered. *)
Theorem message_is_forwarded_unchanged b fuel topic message options w :
  deliver b fuel (ClientMessage topic message options) w
    = Some (log [EvCall (ConnPublish topic message options)] w) /\
  trace (log [EvCall (ConnPublish topic message options)] w)
    = trace w ++ [EvCall (ConnPublish topic message options)] /\
  count is_conn_publish
    (calls_of [EvCall (ConnPublish topic message options)]) = 1.
Proof. repeat split. Qed.

(** The message of the specification: topic t1, payload hello, empty
    options, with hooks registered for every action. *)
Example message_t1_hello :
  let b := before_all "publish" three_hooks
             (before_all "connect" two_sync_hooks (init_hooks new_Bridge)) in
  calls_of <$> (trace <$>
    deliver b 0 (ClientMessage (VStr "t1") (VStr "hello") (VObj []))
      (world_of empty_ctx))
  = Some [ConnPublish (VStr "t1") (VStr "hello") (VObj [])].
Proof. vm_compute. reflexivity. Qed.

(** * Further properties of the code *)

(** ** Registration *)

Lemma before_all_other action a hs : forall b,
  a <> action -> hooks_of (before_all action hs b) !! a = hooks_of b !! a.
Proof.
  induction hs as [|h hs IH]; intros b Hne; simpl; [done|].
  rewrite IH by done.
  destruct (hooks_of b !! action); [|destruct (inherited action)]; simpl;
    try done; by rewrite lookup_insert_ne.
Qed.

Lemma before_all_listening action hs : forall b,
  listening (before_all action hs b) = listening b.
Proof.
  induction hs as [|h hs IH]; intros b; simpl; [done|].
  rewrite IH.
  by destruct (hooks_of b !! action); [|destruct (inherited action)].
Qed.

Lemma actions_not_inherited action :
  action ∈ actions -> inherited action = false.
Proof.
  intros Hin.
  repeat (apply elem_of_cons in Hin as [-> | Hin]; [reflexivity|]).
  by apply elem_of_nil in Hin.
Qed.

(** Registration with [before], for a name that is stored already or
    that a plain object does not inherit, as the four actions of the
    bridge: the hooks registered one after the other are appended to the
    chain of the action in the order of their registration.  For a name
    inherited from [Object.prototype] and not stored ([constructor],
    [toString], ...), [before] throws on [push] and registers nothing.
    In both cases the hooks of every other action and the listener of
    error events are as before.  With anything else than a function
    [before] throws. *)
Theorem before_appends_to_one_chain action hs b :
  (is_Some (hooks_of b !! action) \/ inherited action = false ->
     chain_of (before_all action hs b) action = chain_of b action ++ hs) /\
  (hooks_of b !! action = None -> inherited action = true ->
     (forall h, before action (Callable h) b
                = Throws "this.hooks[action].push is not a function") /\
     before_all action hs b = b) /\
  (forall a, a <> action ->
     hooks_of (before_all action hs b) !! a = hooks_of b !! a) /\
  listening (before_all action hs b) = listening b /\
  (forall v, before action (NotCallable v) b
             = Throws "hook function required") /\
  (action ∈ actions -> inherited action = false).
Proof.
  split; [apply chain_of_before_all|]. split; [|split; [|split; [|split]]].
  - intros Hb Hinh. split; [|by apply before_all_inherited].
    intros h. unfold before. by rewrite Hb, Hinh.
  - intros a Hne. by apply before_all_other.
  - apply before_all_listening.
  - done.
  - apply actions_not_inherited.
Qed.

Lemma init_hook_chain m action a :
  match init_hook m action !! a with Some hs => hs | None => [] end
  = match m !! a with Some hs => hs | None => [] end.
Proof.
  unfold init_hook. destruct (m !! action) as [hs|] eqn:Hm; [done|].
  destruct (decide (action = a)) as [->|Hne].
  - by rewrite lookup_insert_eq, Hm.
  - by rewrite lookup_insert_ne.
Qed.

Lemma init_hook_defined m action a :
  is_Some (m !! a) -> is_Some (init_hook m action !! a).
Proof.
  unfold init_hook. intros Ha. destruct (m !! action) eqn:Hm; [done|].
  destruct (decide (action = a)) as [->|Hne].
  - rewrite lookup_insert_eq. by eexists.
  - by rewrite lookup_insert_ne.
Qed.

Lemma init_hook_here m action : is_Some (init_hook m action !! action).
Proof.
  unfold init_hook. destruct (m !! action) eqn:Hm.
  - rewrite Hm. by eexists.
  - rewrite lookup_insert_eq. by eexists.
Qed.

Lemma init_hook_other m action a :
  a <> action -> init_hook m action !! a = m !! a.
Proof.
  unfold init_hook. intros Hne. destruct (m !! action); [done|].
  by rewrite lookup_insert_ne.
Qed.

Lemma init_hooks_foldl b :
  hooks_of (init_hooks b) = foldl init_hook (hooks_of b) actions.
Proof. reflexivity. Qed.

Lemma foldl_init_hook_chain l a : forall m,
  match foldl init_hook m l !! a with Some hs => hs | None => [] end
  = match m !! a with Some hs => hs | None => [] end.
Proof.
  induction l as [|x l IH]; intros m; simpl; [done|].
  by rewrite IH, init_hook_chain.
Qed.

Lemma foldl_init_hook_keeps l a : forall m,
  is_Some (m !! a) -> is_Some (foldl init_hook m l !! a).
Proof.
  induction l as [|x l IH]; intros m Ha; simpl; [done|].
  by apply IH, init_hook_defined.
Qed.

Lemma foldl_init_hook_defined l a : forall m,
  a ∈ l -> is_Some (foldl init_hook m l !! a).
Proof.
  induction l as [|x l IH]; intros m Hin; simpl.
  - by apply elem_of_nil in Hin.
  - apply elem_of_cons in Hin as [->|Hin]; [|by apply IH].
    apply foldl_init_hook_keeps, init_hook_here.
Qed.

Lemma foldl_init_hook_other l a : forall m,
  a ∉ l -> foldl init_hook m l !! a = m !! a.
Proof.
  induction l as [|x l IH]; intros m Hin; simpl; [done|].
  apply not_elem_of_cons in Hin as [Hne Hin].
  by rewrite IH, init_hook_other.
Qed.

(** The loop of [connect] over [Bridge.actions] loses no hook: the chain
    of every action is what it was, so hooks registered before [connect]
    and hooks registered after it give the same chains.  After it each of
    the four actions has an array of hooks, and no other key is added. *)
Theorem connect_keeps_registered_hooks b :
  (forall a, chain_of (init_hooks b) a = chain_of b a) /\
  (forall a hs, chain_of (before_all a hs (init_hooks b)) a
                = chain_of (init_hooks (before_all a hs b)) a) /\
  (forall a, a ∈ actions -> is_Some (hooks_of (init_hooks b) !! a)) /\
  (forall a, a ∉ actions ->
     hooks_of (init_hooks b) !! a = hooks_of b !! a).
Proof.
  assert (forall b' a, chain_of (init_hooks b') a = chain_of b' a) as Hkeep.
  { intros b' a. unfold chain_of. rewrite init_hooks_foldl.
    apply foldl_init_hook_chain. }
  split; [apply Hkeep|]. split; [|split].
  - intros a hs. rewrite Hkeep.
    destruct (hooks_of b !! a) as [hs0|] eqn:Hb;
      [|destruct (inherited a) eqn:Hinh].
    + rewrite !chain_of_before_all, ?Hkeep; [done| |].
      * left. by eexists.
      * left. rewrite init_hooks_foldl. apply foldl_init_hook_keeps.
        by eexists.
    + assert (a ∉ actions) as Hna.
      { intros Hin. apply actions_not_inherited in Hin. congruence. }
      rewrite !before_all_inherited; try done.
      rewrite init_hooks_foldl. by rewrite foldl_init_hook_other.
    + rewrite !chain_of_before_all, ?Hkeep; [done| |]; by right.
  - intros a Ha. rewrite init_hooks_foldl. by apply foldl_init_hook_defined.
  - intros a Ha. rewrite init_hooks_foldl. by apply foldl_init_hook_other.
Qed.

(** A run reads the hooks of its own action only. *)
Lemma run_same_chain b b' action cb sched w :
  chain_of b' action = chain_of b action ->
  run b' action cb sched w = run b action cb sched w.
Proof.
  intros Heq. unfold run. by rewrite !trigger_chain_of, Heq.
Qed.

(** Hooks registered for one action never run for another: a run of
    [action] is the same with and without the hooks of [other], and
    [connect] itself changes no run. *)
Theorem hooks_of_other_actions_do_not_run b action other hs cb sched w :
  other <> action ->
  run (before_all other hs b) action cb sched w = run b action cb sched w /\
  run (init_hooks b) action cb sched w = run b action cb sched w.
Proof.
  intros Hne. split; apply run_same_chain.
  - unfold chain_of. by rewrite before_all_other.
  - unfold chain_of. rewrite init_hooks_foldl. apply foldl_init_hook_chain.
Qed.

Lemma hooks_of_other_actions_do_not_run_witness :
  run (before_all "subscribe" three_hooks new_Bridge) "publish"
    (on_hooks_done new_Bridge "publish") [0] (world_of publish_ctx)
  = run new_Bridge "publish" (on_hooks_done new_Bridge "publish") [0]
      (world_of publish_ctx) /\
  run (init_hooks new_Bridge) "publish" (on_hooks_done new_Bridge "publish") [0]
    (world_of publish_ctx)
  = run new_Bridge "publish" (on_hooks_done new_Bridge "publish") [0]
      (world_of publish_ctx).
Proof.
  apply (hooks_of_other_actions_do_not_run new_Bridge "publish" "subscribe"
           three_hooks (on_hooks_done new_Bridge "publish") [0] (world_of publish_ctx)).
  discriminate.
Defined.

(** [before] takes any string as the name of the action, but [connect]
    puts listeners on the connection for the four names of
    [Bridge.actions] and for error only.  Hooks registered under another
    name are stored, when the name is not an inherited one, and never run:
    whatever the connection emits under that name, no hook is called and
    nothing is scheduled; under the name error the event is passed on as
    an error event of the bridge, under any other name nothing happens at
    all. *)
Theorem hooks_of_unknown_action_never_run name hs b fuel w :
  name ∉ actions ->
  let b' := before_all name hs (init_hooks b) in
  (inherited name = false -> chain_of b' name = chain_of b name ++ hs) /\
  exists w',
    deliver b' fuel (ConnectionEvent name) w = Some w' /\
    hooks_called (trace w') = hooks_called (trace w) /\
    count is_cb (trace w') = count is_cb (trace w) /\
    ctx w' = ctx w /\ cur w' = cur w /\ queue w' = queue w /\
    (name <> "error" -> w' = w) /\
    (name = "error" ->
       trace w' = trace w ++ [EvCall (BridgeEmit "error" (ctx_value (ctx w)))]).
Proof.
  intros Hname b'. split.
  - intros Hinh. unfold b'. rewrite chain_of_before_all by (by right).
    f_equal. unfold chain_of.
    rewrite init_hooks_foldl. apply foldl_init_hook_chain.
  - simpl. rewrite bool_decide_eq_false_2 by done.
    destruct (String.eqb name "error") eqn:Hn.
    + apply String.eqb_eq in Hn. eexists. split; [reflexivity|].
      simpl. rewrite hooks_called_app, count_app. simpl.
      rewrite app_nil_r, Nat.add_0_r.
      repeat split; try done.
    + exists w. repeat split; try done.
      intros ->. by rewrite String.eqb_refl in Hn.
Qed.

Lemma hooks_of_unknown_action_never_run_witness :
  let b := before_all "publsh" three_hooks (init_hooks new_Bridge) in
  (inherited "publsh" = false ->
   chain_of b "publsh" = chain_of new_Bridge "publsh" ++ three_hooks) /\
  exists w',
    deliver b 3 (ConnectionEvent "publsh") (world_of publish_ctx)
      = Some w' /\
    hooks_called (trace w') = hooks_called (trace (world_of publish_ctx)) /\
    count is_cb (trace w') = count is_cb (trace (world_of publish_ctx)) /\
    ctx w' = ctx (world_of publish_ctx) /\
    cur w' = cur (world_of publish_ctx) /\
    queue w' = queue (world_of publish_ctx) /\
    ("publsh" <> "error" -> w' = world_of publish_ctx) /\
    ("publsh" = "error" ->
       trace w' = trace (world_of publish_ctx)
                  ++ [EvCall (BridgeEmit "error"
                                (ctx_value (ctx (world_of publish_ctx))))]).
Proof.
  apply (hooks_of_unknown_action_never_run "publsh" three_hooks new_Bridge 3
           (world_of publish_ctx)).
  intros Hin.
  repeat (apply elem_of_cons in Hin as [Hin|Hin]; [discriminate|]).
  by apply elem_of_nil in Hin.
Defined.

(** The connection emits an event named error while hooks are stored
    under this name: the hooks are not called, the event becomes an error
    event of the bridge. *)
Example error_event_runs_no_hook :
  let b := before_all "error" three_hooks (init_hooks new_Bridge) in
  chain_of b "error" = three_hooks /\
  trace <$> deliver b 3 (ConnectionEvent "error") (world_of publish_ctx)
  = Some [EvCall (BridgeEmit "error" (ctx_value publish_ctx))].
Proof. split; vm_compute; reflexivity. Qed.

(** ** The listener of an action, all cases *)

Lemma in_actions action :
  action ∈ actions ->
  action = "connect" \/ action = "publish" \/ action = "subscribe"
  \/ action = "unsubscribe".
Proof.
  intros Hin.
  repeat (apply elem_of_cons in Hin as [->|Hin]; [tauto|]).
  by apply elem_of_nil in Hin.
Qed.

Lemma count_true {A} (l : list A) : count (fun _ => true) l = length l.
Proof. induction l as [|x l IH]; simpl; auto. Qed.

(** What the listener calls, case by case. *)
Lemma on_hooks_done_cases b action err c :
  action ∈ actions ->
  let c' := set_error err c in
  (on_hooks_done b action err c).1 = c' /\
  ((action = "connect" /\
    (on_hooks_done b action err c).2 = [ConnAck action c' KAck]) \/
   (action <> "connect" /\ truthy err = true /\
    (on_hooks_done b action err c).2 = [ConnOnError action c' err]) \/
   (action <> "connect" /\ truthy err = false /\ rejected c = true /\
    (on_hooks_done b action err c).2 = [ConnAck action c' KAck]) \/
   (action <> "connect" /\ truthy err = false /\ rejected c = false /\
    exists call, (on_hooks_done b action err c).2 = [call] /\
      is_dispatch call = true /\
      dispatch_callback call = Some (KDone action))).
Proof.
  intros Hin c'. split; [reflexivity|].
  unfold on_hooks_done, rejected. simpl.
  destruct (in_actions action Hin) as [-> | [-> | [-> | ->]]]; simpl;
    [by left| | |];
    (right; destruct (truthy err); [left; by repeat split|]; right;
     destruct (is_false (ctx_authorized c) || truthy (ctx_reject c));
     [left; by repeat split|right]; repeat split; try done;
     eexists; repeat split).
Qed.

(** Each time the hook pipeline of one of the four actions completes,
    the listener makes exactly one call: the acknowledgement, the error
    handler, or one call on the client.  The call on the client is made
    exactly when the action is not connect, the pipeline completed without
    error, and the context is neither unauthorized nor rejected. *)
Theorem listener_makes_one_call b action err c :
  action ∈ actions ->
  length (on_hooks_done b action err c).2 = 1 /\
  count is_response (on_hooks_done b action err c).2
    + count is_dispatch (on_hooks_done b action err c).2 = 1 /\
  (count is_dispatch (on_hooks_done b action err c).2 = 1 <->
   action <> "connect" /\ truthy err = false /\ rejected c = false).
Proof.
  intros Hin.
  destruct (on_hooks_done_cases b action err c Hin)
    as (_ & [(Ha & Heq)|[(Ha & He & Heq)|[(Ha & He & Hr & Heq)
             |(Ha & He & Hr & call & Heq & Hd & _)]]]);
    rewrite Heq; simpl.
  - repeat split; try done. intros (Hne & _). done.
  - repeat split; try done. intros (_ & He' & _). congruence.
  - repeat split; try done. intros (_ & _ & Hr'). congruence.
  - rewrite Hd. destruct call; try discriminate; simpl; repeat split; done.
Qed.

Lemma listener_makes_one_call_witness :
  length (on_hooks_done new_Bridge "subscribe" VUndefined publish_ctx).2 = 1 /\
  count is_response (on_hooks_done new_Bridge "subscribe" VUndefined publish_ctx).2
    + count is_dispatch (on_hooks_done new_Bridge "subscribe" VUndefined publish_ctx).2
    = 1 /\
  (count is_dispatch (on_hooks_done new_Bridge "subscribe" VUndefined publish_ctx).2 = 1
   <-> "subscribe" <> "connect" /\ truthy VUndefined = false
       /\ rejected publish_ctx = false).
Proof.
  apply (listener_makes_one_call new_Bridge "subscribe" VUndefined publish_ctx).
  apply elem_of_cons. right. apply elem_of_cons. right.
  apply elem_of_cons. by left.
Defined.

(** What is dispatched: a publish goes to the client with the topic, the
    message and the options of the context; a subscribe with
    [ctx.subscriptions] when it is set and with [ctx.topic] otherwise, and
    the options; an unsubscribe with [ctx.unsubscriptions] when it is set
    and with [ctx.topic] otherwise.  Each is given [done] of this action as
    its callback, and the context keeps its fields but [error]. *)
Theorem accepted_action_is_dispatched b err c :
  truthy err = false -> rejected c = false ->
  (on_hooks_done b "publish" err c).2
    = [ClientPublish (ctx_topic c) (ctx_message c) (ctx_options c)
         (KDone "publish")] /\
  (on_hooks_done b "subscribe" err c).2
    = [ClientSubscribe
         (if truthy (ctx_subscriptions c) then ctx_subscriptions c
          else ctx_topic c)
         (ctx_options c) (KDone "subscribe")] /\
  (on_hooks_done b "unsubscribe" err c).2
    = [ClientUnsubscribe
         (if truthy (ctx_unsubscriptions c) then ctx_unsubscriptions c
          else ctx_topic c)
         (KDone "unsubscribe")].
Proof.
  intros Herr Hrej. unfold rejected in Hrej.
  unfold on_hooks_done. simpl. rewrite Herr, Hrej. done.
Qed.

Lemma accepted_action_is_dispatched_witness :
  let c := publish_ctx in
  (on_hooks_done new_Bridge "publish" VUndefined c).2
    = [ClientPublish (ctx_topic c) (ctx_message c) (ctx_options c)
         (KDone "publish")] /\
  (on_hooks_done new_Bridge "subscribe" VUndefined c).2
    = [ClientSubscribe
         (if truthy (ctx_subscriptions c) then ctx_subscriptions c
          else ctx_topic c)
         (ctx_options c) (KDone "subscribe")] /\
  (on_hooks_done new_Bridge "unsubscribe" VUndefined c).2
    = [ClientUnsubscribe
         (if truthy (ctx_unsubscriptions c) then ctx_unsubscriptions c
          else ctx_topic c)
         (KDone "unsubscribe")].
Proof.
  apply (accepted_action_is_dispatched new_Bridge VUndefined publish_ctx);
    reflexivity.
Defined.

(** When the client completes a dispatch without error, [done] only
    acknowledges: no error event, no [client.end()].  When the connection
    then completes the acknowledgement without error, the bridge does
    nothing more. *)
Theorem dispatch_success_only_acks b action v c0 call k c err :
  call ∈ (on_hooks_done b action v c0).2 ->
  dispatch_callback call = Some k ->
  truthy err = false ->
  invoke b k c err = ([ConnAck action c KAck], Returned) /\
  forall ack k', ack ∈ (invoke b k c err).1 ->
    ack_callback_of ack = Some k' ->
    invoke b k' c err = ([], Returned).
Proof.
  intros Hin Hk Herr.
  rewrite (dispatch_gets_done b action v c0 call k Hin Hk).
  simpl. unfold done. rewrite Herr. simpl. split; [done|].
  intros ack k' Hack Hk'.
  apply elem_of_cons in Hack as [->|Hack]; [|by apply elem_of_nil in Hack].
  simpl in Hk'. injection Hk' as <-. simpl. unfold ack_callback.
  by rewrite Herr.
Qed.

Lemma dispatch_success_only_acks_witness :
  let b := init_hooks new_Bridge in
  let c := set_error VUndefined publish_ctx in
  invoke b (KDone "publish") c VNull
    = ([ConnAck "publish" c KAck], Returned) /\
  forall ack k', ack ∈ (invoke b (KDone "publish") c VNull).1 ->
    ack_callback_of ack = Some k' -> invoke b k' c VNull = ([], Returned).
Proof.
  apply (dispatch_success_only_acks (init_hooks new_Bridge) "publish"
           VUndefined publish_ctx
           (ClientPublish (VStr "t1") (VStr "m1") (VObj [])
              (KDone "publish"))
           (KDone "publish") (set_error VUndefined publish_ctx) VNull).
  - vm_compute. apply elem_of_cons. by left.
  - reflexivity.
  - reflexivity.
Defined.

(** Every completion of the pipeline of one of the four actions gives the
    downstream peer at most one answer, the acknowledgement or the error
    handler, never both: either the listener calls it, or it dispatches to
    the client and the answer is left to [done].  [done] acknowledges
    exactly once and returns, with one exception: when the client reports
    an error and the bridge has no listener of its error events, the
    emission throws out of [done] and the peer gets no answer.  Nothing is
    dispatched again from a callback, and the callback of the
    acknowledgement answers nothing more. *)
Theorem completion_is_answered_once_unless_emit_throws
    b action err c call :
  action ∈ actions ->
  call ∈ (on_hooks_done b action err c).2 ->
  match dispatch_callback call with
  | None => is_response call = true
  | Some k =>
      is_response call = false /\
      forall c' e,
        count is_response (invoke b k c' e).1
          = (if truthy e && negb (listening b) then 0 else 1) /\
        (invoke b k c' e).2
          = (if truthy e && negb (listening b) then Threw else Returned) /\
        count is_dispatch (invoke b k c' e).1 = 0
  end /\
  forall c' e, count is_response (invoke b KAck c' e).1 = 0 /\
               count is_dispatch (invoke b KAck c' e).1 = 0.
Proof.
  intros Hin Hcall. split.
  - destruct (on_hooks_done_cases b action err c Hin)
      as (_ & [(Ha & Heq)|[(Ha & He & Heq)|[(Ha & He & Hr & Heq)
               |(Ha & He & Hr & call' & Heq & Hd & Hk)]]]);
      rewrite Heq in Hcall;
      apply elem_of_cons in Hcall as [->|Hcall];
      try (by apply elem_of_nil in Hcall); simpl; try done.
    rewrite Hk. split.
    + destruct call'; try discriminate; done.
    + intros c' e. simpl. unfold done, error, emit_error.
      destruct (truthy e), (listening b); simpl; done.
  - intros c' e. simpl. unfold ack_callback, error, emit_error.
    destruct (truthy e), (listening b); simpl; done.
Qed.

Lemma completion_is_answered_once_unless_emit_throws_witness :
  let b := init_hooks new_Bridge in
  let call := ClientPublish (VStr "t1") (VStr "m1") (VObj [])
                (KDone "publish") in
  match dispatch_callback call with
  | None => is_response call = true
  | Some k =>
      is_response call = false /\
      forall c' e,
        count is_response (invoke b k c' e).1
          = (if truthy e && negb (listening b) then 0 else 1) /\
        (invoke b k c' e).2
          = (if truthy e && negb (listening b) then Threw else Returned) /\
        count is_dispatch (invoke b k c' e).1 = 0
  end /\
  forall c' e, count is_response (invoke b KAck c' e).1 = 0 /\
               count is_dispatch (invoke b KAck c' e).1 = 0.
Proof.
  apply (completion_is_answered_once_unless_emit_throws
           (init_hooks new_Bridge) "publish" VUndefined publish_ctx
           (ClientPublish (VStr "t1") (VStr "m1") (VObj [])
              (KDone "publish"))).
  - apply elem_of_cons. right. apply elem_of_cons. by left.
  - vm_compute. apply elem_of_cons. by left.
Defined.

(** The two cases on the publish of the sample: with a listener of error
    events the failed publish is acknowledged, without one it is not. *)
Example failed_publish_with_and_without_listener :
  let c := set_error VUndefined publish_ctx in
  invoke (on_error (init_hooks new_Bridge)) (KDone "publish") c an_error
    = ([BridgeEmit "error" an_error; ClientEnd; ConnAck "publish" c KAck],
       Returned) /\
  invoke (init_hooks new_Bridge) (KDone "publish") c an_error
    = ([BridgeEmit "error" an_error], Threw).
Proof. split; reflexivity. Qed.

(** ** Whole runs, any hooks *)

Lemma on_hooks_done_quiet b action err c :
  count is_emit (on_hooks_done b action err c).2 = 0 /\
  count is_close (on_hooks_done b action err c).2 = 0 /\
  count is_end (on_hooks_done b action err c).2 = 0.
Proof.
  unfold on_hooks_done, done. simpl.
  repeat match goal with
         | |- context [if ?b then _ else _] => destruct b
         end; simpl; auto.
Qed.

(** A failing hook is not reported on the error event of the bridge: in
    a run of any action, with any hooks and any schedule, the bridge emits
    no error event, does not close the connection and does not end the
    client.  These three only happen in callbacks called by the client or
    by the connection. *)
Theorem runs_never_emit_close_or_end b action sched w :
  exists w' tr,
    run b action (on_hooks_done b action) sched w = Some w' /\
    trace w' = trace w ++ tr /\
    count is_emit (calls_of tr) = 0 /\
    count is_close (calls_of tr) = 0 /\
    count is_end (calls_of tr) = 0.
Proof.
  destruct (run_log b action (on_hooks_done b action) sched w)
    as (w' & tr & Hrun & Htr & Hst).
  exists w', tr. split; [done|]. split; [done|].
  rewrite (steps_count (on_hooks_done b action) is_emit 0 tr),
          (steps_count (on_hooks_done b action) is_close 0 tr),
          (steps_count (on_hooks_done b action) is_end 0 tr); try done;
    intros err c; apply (on_hooks_done_quiet b).
Qed.

Lemma on_hooks_done_onerror b action err c0 a c e :
  ConnOnError a c e ∈ (on_hooks_done b action err c0).2 ->
  a = action /\ action <> "connect" /\ truthy err = true /\ e = err /\
  c = set_error err c0.
Proof.
  unfold on_hooks_done, done. simpl.
  destruct (String.eqb action "connect") eqn:Hconn.
  { intros Hin. apply elem_of_cons in Hin as [Hin|Hin]; [discriminate|].
    by apply elem_of_nil in Hin. }
  apply String.eqb_neq in Hconn.
  destruct (truthy err) eqn:Herr.
  { intros Hin. apply elem_of_cons in Hin as [Hin|Hin].
    - by injection Hin as -> -> ->.
    - by apply elem_of_nil in Hin. }
  repeat match goal with
         | |- context [if ?b then _ else _] => destruct b
         end; simpl; intros Hin;
    repeat (apply elem_of_cons in Hin as [Hin|Hin]; [discriminate|]);
    by apply elem_of_nil in Hin.
Qed.

Lemma steps_onerror b action tr :
  steps (on_hooks_done b action) tr ->
  forall a c e, ConnOnError a c e ∈ calls_of tr ->
    a = action /\ action <> "connect" /\ truthy e = true /\
    ctx_error c = e /\ EvNext e ∈ tr.
Proof.
  induction 1 as [|rest H IH|err c0 rest H IH|err i rest He H IH
                  |c0 rest H IH]; intros a c e Hin; cbn [calls_of] in Hin.
  - by apply elem_of_nil in Hin.
  - destruct (IH a c e Hin) as (? & ? & ? & ? & ?).
    repeat split; auto. by right.
  - rewrite calls_of_app, calls_of_calls in Hin.
    apply elem_of_app in Hin as [Hin|Hin].
    + apply on_hooks_done_onerror in Hin as (-> & Hne & Herr & -> & ->).
      repeat split; auto. by left.
    + destruct (IH a c e Hin) as (? & ? & ? & ? & ?).
      repeat split; auto. do 2 right. apply elem_of_app. by right.
  - destruct (IH a c e Hin) as (? & ? & ? & ? & ?).
    repeat split; auto. by do 2 right.
  - rewrite calls_of_app, calls_of_calls in Hin.
    apply elem_of_app in Hin as [Hin|Hin].
    + by apply on_hooks_done_onerror in Hin as (_ & _ & Herr & _).
    + destruct (IH a c e Hin) as (? & ? & ? & ? & ?).
      repeat split; auto. right. apply elem_of_app. by right.
Qed.

(** The bridge invents no error: in a run of any action, with any hooks
    and any schedule, every call of [connection.onError] is for this
    action, which is not connect, and carries an error that a hook passed
    to [next], with the same error in [ctx.error]. *)
Theorem onError_only_reports_hook_errors b action sched w :
  exists w' tr,
    run b action (on_hooks_done b action) sched w = Some w' /\
    trace w' = trace w ++ tr /\
    forall a c e, ConnOnError a c e ∈ calls_of tr ->
      a = action /\ action <> "connect" /\ truthy e = true /\
      ctx_error c = e /\ EvNext e ∈ tr.
Proof.
  destruct (run_log b action (on_hooks_done b action) sched w)
    as (w' & tr & Hrun & Htr & Hst).
  exists w', tr. split; [done|]. split; [done|].
  by apply (steps_onerror b).
Qed.

Lemma onError_only_reports_hook_errors_witness :
  let b := before_all "publish" three_hooks (init_hooks new_Bridge) in
  let c := set_error an_error (set_authorized (VBool true) publish_ctx) in
  exists w' tr,
    run b "publish" (on_hooks_done b "publish") [0] (world_of publish_ctx)
      = Some w' /\
    trace w' = trace (world_of publish_ctx) ++ tr /\
    ConnOnError "publish" c an_error ∈ calls_of tr /\
    truthy an_error = true /\ ctx_error c = an_error /\
    EvNext an_error ∈ tr.
Proof.
  destruct (onError_only_reports_hook_errors
              (before_all "publish" three_hooks (init_hooks new_Bridge))
              "publish" [0] (world_of publish_ctx))
    as (w' & tr & Hrun & Htr & Hall).
  exists w', tr.
  assert (ConnOnError "publish"
            (set_error an_error (set_authorized (VBool true) publish_ctx))
            an_error ∈ calls_of tr) as Hin.
  { vm_compute in Hrun. injection Hrun as <-. simpl in Htr. subst tr.
    vm_compute. apply elem_of_cons. by left. }
  destruct (Hall _ _ _ Hin) as (_ & _ & He & Hc & Hn).
  repeat split; assumption.
Defined.

(** In a run of one of the four actions, with any hooks and any
    schedule, the bridge makes as many calls as the pipeline completed:
    none before the completion callback is called, one for each call of
    it. *)
Theorem one_call_per_completion b action sched w :
  action ∈ actions ->
  exists w' tr,
    run b action (on_hooks_done b action) sched w = Some w' /\
    trace w' = trace w ++ tr /\
    length (calls_of tr) = count is_cb tr /\
    (count is_cb tr = 0 -> calls_of tr = []).
Proof.
  intros Hin.
  destruct (run_log b action (on_hooks_done b action) sched w)
    as (w' & tr & Hrun & Htr & Hst).
  exists w', tr. split; [done|]. split; [done|].
  assert (length (calls_of tr) = count is_cb tr) as Hlen.
  { rewrite <- count_true.
    rewrite (steps_count (on_hooks_done b action) (fun _ => true) 1 tr);
      [lia| |done].
    intros err c. rewrite count_true.
    destruct (on_hooks_done_cases b action err c Hin)
      as (_ & [(Ha & Heq)|[(Ha & He & Heq)|[(Ha & He & Hr & Heq)
               |(Ha & He & Hr & call & Heq & _)]]]); by rewrite Heq. }
  split; [done|]. intros H0. rewrite H0 in Hlen.
  by destruct (calls_of tr).
Qed.

Lemma one_call_per_completion_witness :
  let b := before_all "publish" three_hooks (init_hooks new_Bridge) in
  exists w' tr,
    run b "publish" (on_hooks_done b "publish") [0] (world_of publish_ctx)
      = Some w' /\
    trace w' = trace (world_of publish_ctx) ++ tr /\
    length (calls_of tr) = count is_cb tr /\
    (count is_cb tr = 0 -> calls_of tr = []).
Proof.
  apply (one_call_per_completion
           (before_all "publish" three_hooks (init_hooks new_Bridge))
           "publish" [0] (world_of publish_ctx)).
  apply elem_of_cons. right. apply elem_of_cons. by left.
Defined.

(** ** Hooks that do not go on *)

Lemma tick_quiet cb hooks fuel i w :
  Forall quiet_task (queue w) ->
  exists w', tick cb hooks fuel i w = Some w' /\
    trace w' = trace w /\ cur w' = cur w /\ Forall quiet_task (queue w').
Proof.
  intros Hq. unfold tick. destruct (queue w !! i) as [t|] eqn:Hi.
  2:{ by exists w. }
  assert (quiet_task t) as Ht by (eapply Forall_lookup_1; eauto).
  destruct t as [|p]; [done|]. simpl in *.
  destruct (exec_no_next cb hooks (call_hook cb hooks fuel) p
              (set_queue (delete i (queue w)) w) Ht) as (c & q & -> & Hq').
  eexists. split; [done|]. simpl. repeat split.
  apply Forall_app. split; [by apply Forall_delete|done].
Qed.

Lemma run_ticks_quiet cb hooks fuel sched : forall w,
  Forall quiet_task (queue w) ->
  exists w', run_ticks cb hooks fuel sched w = Some w' /\
    trace w' = trace w /\ cur w' = cur w /\ Forall quiet_task (queue w').
Proof.
  induction sched as [|i sched IH]; intros w Hq; simpl.
  - by exists w.
  - destruct (tick_quiet cb hooks fuel i w Hq) as (w1 & -> & Ht & Hc & Hq1).
    destruct (IH w1 Hq1) as (w2 & -> & Ht2 & Hc2 & Hq2).
    exists w2. rewrite Ht2, Hc2. by repeat split.
Qed.

(** A first hook that never calls [next], now or later, stalls the
    action for good: whatever the other hooks and the schedule, hook 0 is
    the only thing that ever happens; no other hook runs, the completion
    callback is not called and no collaborator is called, so the peer is
    never answered. *)
Theorem silent_hook_stalls_the_action b action cb sched c h0 hs :
  chain_of b action = h0 :: hs ->
  no_next h0 ->
  exists w',
    run b action cb sched (world_of c) = Some w' /\
    trace w' = [EvHook 0] /\
    calls_of (trace w') = [] /\ count is_cb (trace w') = 0.
Proof.
  intros Hb Hh0. unfold run. rewrite trigger_chain_of, Hb.
  set (hooks := h0 :: hs).
  set (w0 := log [EvHook 0] (set_cur 0 (world_of c))).
  change (call_hook cb hooks (length hooks) h0 w0)
    with (exec cb hooks (call_hook cb hooks (length hs)) h0 w0).
  destruct (exec_no_next cb hooks (call_hook cb hooks (length hs)) h0 w0 Hh0)
    as (c1 & q & -> & Hq).
  destruct (run_ticks_quiet cb hooks (length hooks) sched
              (mkWorld c1 (cur w0) (trace w0) (queue w0 ++ q)))
    as (w' & -> & Htr & _); [done|].
  exists w'. simpl in Htr. rewrite Htr. by repeat split.
Qed.

Lemma silent_hook_stalls_the_action_witness :
  let b := before_all "publish"
             [HLater (HUpdate (set_reject (VBool true)) HReturn) HReturn;
              hook_pass] (init_hooks new_Bridge) in
  exists w',
    run b "publish" (on_hooks_done b "publish") [0; 0]
      (world_of publish_ctx) = Some w' /\
    trace w' = [EvHook 0] /\
    calls_of (trace w') = [] /\ count is_cb (trace w') = 0.
Proof.
  apply (silent_hook_stalls_the_action
           (before_all "publish"
              [HLater (HUpdate (set_reject (VBool true)) HReturn) HReturn;
               hook_pass] (init_hooks new_Bridge))
           "publish"
           (on_hooks_done
              (before_all "publish"
                 [HLater (HUpdate (set_reject (VBool true)) HReturn) HReturn;
                  hook_pass] (init_hooks new_Bridge)) "publish")
           [0; 0] publish_ctx
           (HLater (HUpdate (set_reject (VBool true)) HReturn) HReturn)
           [hook_pass]).
  - vm_compute. reflexivity.
  - simpl. auto.
Defined.

(** ** No dispatch before every hook was called *)

Lemma dispatch_guard_app n tr1 : forall s tr2,
  dispatch_guard n s (tr1 ++ tr2)
  = dispatch_guard n s tr1 && dispatch_guard n (s + count is_hook tr1) tr2.
Proof.
  induction tr1 as [|e tr1 IH]; intros s tr2; simpl.
  - by rewrite Nat.add_0_r.
  - destruct e; simpl; rewrite ?IH, ?Nat.add_0_r; try done.
    + by rewrite Nat.add_succ_r.
    + by rewrite andb_assoc.
Qed.

Lemma dispatch_guard_no_dispatch n s calls :
  count is_dispatch calls = 0 -> dispatch_guard n s (map EvCall calls) = true.
Proof.
  induction calls as [|c calls IH]; simpl; [done|].
  destruct (is_dispatch c); simpl; [lia|]. auto.
Qed.

Lemma dispatch_guard_all_seen n s calls :
  n <= s -> dispatch_guard n s (map EvCall calls) = true.
Proof.
  intros Hn. induction calls as [|c calls IH]; simpl; [done|].
  rewrite IH, andb_true_r. apply orb_true_iff. right.
  by apply Nat.leb_le.
Qed.

(** The check, read at one place of the log. *)
Lemma dispatch_guard_at n pre : forall s call post,
  dispatch_guard n s (pre ++ EvCall call :: post) = true ->
  is_dispatch call = true -> n <= s + count is_hook pre.
Proof.
  induction pre as [|e pre IH]; intros s call post Hg Hd; simpl in *.
  - rewrite Hd in Hg. simpl in Hg. apply andb_true_iff in Hg as [Hn _].
    apply Nat.leb_le in Hn. lia.
  - destruct e; simpl in *.
    + apply IH in Hg; [lia|done].
    + by apply IH in Hg.
    + by apply IH in Hg.
    + apply andb_true_iff in Hg as [_ Hg]. by apply IH in Hg.
Qed.

Lemma count_hook_called tr : count is_hook tr = length (hooks_called tr).
Proof.
  induction tr as [|e tr IH]; simpl; [done|]. destruct e; simpl; lia.
Qed.

Lemma on_hooks_done_error_no_dispatch b action err c :
  truthy err = true -> count is_dispatch (on_hooks_done b action err c).2 = 0.
Proof.
  intros Herr. unfold on_hooks_done, done. simpl. rewrite Herr. simpl.
  by destruct (String.eqb action "connect").
Qed.

Section Guard.

Variable b : Bridge.
Variable action : string.
Variable hooks : list Hook.

Lemma guard_post_refl w : guard_post hooks w w.
Proof.
  split; [lia|]. split; [done|]. exists []. rewrite app_nil_r.
  split; [done|]. split; [simpl; lia|done].
Qed.

Lemma guard_post_trans w1 w2 w3 :
  guard_post hooks w1 w2 -> guard_post hooks w2 w3 -> guard_post hooks w1 w3.
Proof.
  intros (Hc1 & Hq1 & t1 & Ht1 & Hn1 & Hg1)
         (Hc2 & Hq2 & t2 & Ht2 & Hn2 & Hg2).
  split; [lia|]. split; [auto|]. exists (t1 ++ t2).
  rewrite Ht2, Ht1, app_assoc. split; [done|].
  rewrite count_app, dispatch_guard_app, Hg1, Hn1. split; [lia|].
  simpl. replace (S (cur w1 + (cur w2 - cur w1))) with (S (cur w2)) by lia.
  done.
Qed.

Lemma guard_post_next_stops err w :
  truthy err = true \/ length hooks <= S (cur w) ->
  guard_post hooks w
    (call_cb (on_hooks_done b action) err (log [EvNext err] w)).
Proof.
  intros Hstop. split; [simpl; lia|]. split; [done|].
  eexists. unfold call_cb. simpl. rewrite <- app_assoc. simpl.
  split; [reflexivity|]. simpl. rewrite count_calls_hook, Nat.sub_diag.
  split; [done|].
  destruct Hstop as [Herr|Hlast].
  - by apply dispatch_guard_no_dispatch, (on_hooks_done_error_no_dispatch b).
  - by apply dispatch_guard_all_seen.
Qed.

Lemma exec_guard_with invoke p : forall m w,
  guard_from hooks (S m) invoke -> m <= cur w ->
  exists w', exec (on_hooks_done b action) hooks invoke p w = Some w'
             /\ guard_post hooks w w'.
Proof.
  induction p as [|k IH|f k IH|err k IH|later IHl k IHk];
    intros m w Hinv Hm; simpl.
  - exists w. split; [done|apply guard_post_refl].
  - eapply IH; eauto.
  - destruct (IH m (set_ctx (f (ctx w)) w) Hinv Hm) as (w' & -> & Hpost).
    by exists w'.
  - assert (exists w1,
              next_with (on_hooks_done b action) hooks invoke err w = Some w1
              /\ guard_post hooks w w1) as (w1 & -> & Hpost1).
    { unfold next_with. simpl.
      destruct (truthy err) eqn:Herr;
        [|destruct (hooks !! S (cur w)) as [h|] eqn:Hh].
      - eexists. split; [done|]. apply guard_post_next_stops. by left.
      - apply lookup_lt_Some in Hh.
        destruct (Hinv h (log [EvHook (S (cur w))]
                            (set_cur (S (cur w)) (log [EvNext err] w))))
          as (w1 & -> & Hc & Hq & tr & Htr & Hn & Hg); simpl; [lia|done|].
        exists w1. split; [done|]. simpl in *.
        split; [lia|]. split; [auto|].
        exists (EvNext err :: EvHook (S (cur w)) :: tr).
        rewrite Htr, <- !app_assoc. simpl. split; [done|].
        rewrite Hn. split; [lia|done].
      - eexists. split; [done|]. apply guard_post_next_stops. right.
        by apply lookup_ge_None in Hh. }
    destruct (IH m w1 Hinv) as (w2 & -> & Hpost2).
    { destruct Hpost1 as (Hc & _). lia. }
    exists w2. split; [done|]. by eapply guard_post_trans.
  - destruct (IHk m (enqueue (TResume later) w) Hinv Hm)
      as (w' & -> & Hc & Hq & Htr).
    exists w'. split; [done|]. split; [done|]. split; [|done].
    intros Hres. apply Hq. simpl. apply Forall_app. split; [done|].
    by repeat constructor.
Qed.

Lemma call_hook_guard fuel :
  guard_from hooks (length hooks - fuel)
    (call_hook (on_hooks_done b action) hooks fuel).
Proof.
  induction fuel as [|fuel IH]; intros h w Hm Hn.
  - lia.
  - simpl. apply exec_guard_with with (m := cur w); [|lia].
    intros h' w' Hm' Hn'. apply IH; [lia|done].
Qed.

Lemma exec_guard fuel p w :
  length hooks <= S (cur w + fuel) ->
  exists w', exec (on_hooks_done b action) hooks
               (call_hook (on_hooks_done b action) hooks fuel) p w = Some w'
             /\ guard_post hooks w w'.
Proof.
  intros Hlen. apply exec_guard_with with (m := cur w); [|lia].
  intros h' w' Hm' Hn'. apply call_hook_guard; [lia|done].
Qed.

Lemma tick_guard fuel i w :
  length hooks <= fuel -> Forall is_resume (queue w) ->
  exists w', tick (on_hooks_done b action) hooks fuel i w = Some w' /\
    guard_post hooks w w' /\ Forall is_resume (queue w').
Proof.
  intros Hfuel Hres. unfold tick. destruct (queue w !! i) as [t|] eqn:Hi.
  2:{ exists w. split; [done|]. split; [apply guard_post_refl|done]. }
  assert (is_resume t) as Ht by (eapply Forall_lookup_1; eauto).
  destruct t as [|p]; [done|]. simpl.
  set (w0 := set_queue (delete i (queue w)) w).
  destruct (exec_guard fuel p w0) as (w' & -> & Hc & Hq & Htr);
    [simpl; lia|].
  assert (Forall is_resume (queue w')) as Hres'
    by (apply Hq; simpl; by apply Forall_delete).
  exists w'. by repeat split.
Qed.

Lemma run_ticks_guard fuel sched : forall w,
  length hooks <= fuel -> Forall is_resume (queue w) ->
  exists w', run_ticks (on_hooks_done b action) hooks fuel sched w = Some w' /\
    guard_post hooks w w'.
Proof.
  induction sched as [|i sched IH]; intros w Hfuel Hres; simpl.
  - exists w. split; [done|apply guard_post_refl].
  - destruct (tick_guard fuel i w Hfuel Hres) as (w1 & -> & H1 & Hres1).
    destruct (IH w1 Hfuel Hres1) as (w2 & -> & H2).
    exists w2. split; [done|]. by eapply guard_post_trans.
Qed.

End Guard.

(** Hooks cannot be bypassed: in a run of an action with hooks, whatever
    the hooks do (even when they call [next] more than once) and whatever
    the schedule, each call on the client (publish, subscribe, unsubscribe)
    is made when every registered hook has been called before it, in the
    order of registration. *)
Theorem no_dispatch_before_all_hooks b action sched c h0 hs :
  chain_of b action = h0 :: hs ->
  exists w',
    run b action (on_hooks_done b action) sched (world_of c) = Some w' /\
    forall pre call post,
      trace w' = pre ++ EvCall call :: post -> is_dispatch call = true ->
      hooks_called pre = seq 0 (length (h0 :: hs)).
Proof.
  intros Hb.
  destruct (run_steps b action (on_hooks_done b action) sched (world_of c)
              h0 hs Hb) as (w' & Hrun & _ & Hlt & tr & Htr & _ & Hcalled).
  exists w'. split; [done|].
  assert (exists tr', trace w' = EvHook 0 :: tr' /\
            dispatch_guard (length (h0 :: hs)) 1 tr' = true)
    as (tr' & Htr' & Hguard).
  { revert Hrun. unfold run. rewrite trigger_chain_of, Hb.
    set (hooks := h0 :: hs).
    set (w0 := log [EvHook 0] (set_cur 0 (world_of c))).
    change (call_hook (on_hooks_done b action) hooks (length hooks) h0 w0)
      with (exec (on_hooks_done b action) hooks
              (call_hook (on_hooks_done b action) hooks (length hs)) h0 w0).
    destruct (exec_guard b action hooks (length hs) h0 w0)
      as (w1 & -> & H1); [simpl; lia|].
    assert (Forall is_resume (queue w1)) as Hres.
    { destruct H1 as (_ & Hq & _). by apply Hq. }
    destruct (run_ticks_guard b action hooks (length hooks) sched w1)
      as (w2 & -> & H2); [done|done|].
    intros [= ->].
    destruct (guard_post_trans hooks _ _ _ H1 H2) as (_ & _ & t & Ht & _ & Hg).
    by exists t. }
  simpl in Htr, Hcalled, Hlt. rewrite Htr in Htr'. injection Htr' as <-.
  intros pre call post Hsplit Hd.
  assert (S (cur w') <= length (h0 :: hs)) as Hcur by (apply Hlt; simpl; lia).
  assert (hooks_called (trace w') = seq 0 (S (cur w'))) as Hall.
  { rewrite Htr. simpl. by rewrite Hcalled, Nat.sub_0_r. }
  destruct pre as [|e pre]; simpl in Hsplit; rewrite Htr in Hsplit;
    [discriminate|]. injection Hsplit as <- Hsplit.
  rewrite Hsplit in Hguard.
  apply dispatch_guard_at in Hguard; [|done].
  rewrite Htr, Hsplit in Hall. simpl in Hall.
  rewrite hooks_called_app in Hall.
  assert (length (hooks_called pre) + length (hooks_called (EvCall call :: post))
          = cur w') as Hlen.
  { apply (f_equal length) in Hall. simpl in Hall.
    rewrite length_app, length_seq in Hall. simpl. lia. }
  rewrite count_hook_called in Hguard.
  assert (hooks_called (EvCall call :: post) = []) as Hnil.
  { destruct (hooks_called (EvCall call :: post)); [done|].
    simpl in Hlen, Hguard, Hcur. lia. }
  rewrite Hnil, app_nil_r in Hall. simpl. rewrite Hall.
  f_equal. simpl in *. rewrite Hnil in Hlen. simpl in Hlen.
  replace (length hs) with (cur w') by lia. done.
Qed.

Lemma no_dispatch_before_all_hooks_witness :
  let b := before_all "publish" [hook_twice; hook_pass]
             (init_hooks new_Bridge) in
  exists w' pre call post,
    run b "publish" (on_hooks_done b "publish") [] (world_of publish_ctx)
      = Some w' /\
    trace w' = pre ++ EvCall call :: post /\
    is_dispatch call = true /\
    hooks_called pre = seq 0 (length [hook_twice; hook_pass]).
Proof.
  destruct (no_dispatch_before_all_hooks
              (before_all "publish" [hook_twice; hook_pass]
                 (init_hooks new_Bridge))
              "publish" [] publish_ctx hook_twice [hook_pass])
    as (w' & Hrun & Hguard); [vm_compute; reflexivity|].
  exists w',
    [EvHook 0; EvNext VUndefined; EvHook 1; EvNext VUndefined;
     EvCb VUndefined],
    (ClientPublish (VStr "t1") (VStr "m1") (VObj []) (KDone "publish")),
    [EvNext VUndefined; EvCb VUndefined;
     EvCall (ClientPublish (VStr "t1") (VStr "m1") (VObj [])
               (KDone "publish"))].
  assert (trace w' =
          [EvHook 0; EvNext VUndefined; EvHook 1; EvNext VUndefined;
           EvCb VUndefined]
          ++ EvCall (ClientPublish (VStr "t1") (VStr "m1") (VObj [])
                       (KDone "publish"))
          :: [EvNext VUndefined; EvCb VUndefined;
              EvCall (ClientPublish (VStr "t1") (VStr "m1") (VObj [])
                        (KDone "publish"))]) as Htr.
  { vm_compute in Hrun. injection Hrun as <-. reflexivity. }
  split; [exact Hrun|]. split; [exact Htr|]. split; [reflexivity|].
  exact (Hguard _ _ _ Htr eq_refl).
Defined.

(** ** Hooks that write the context and go on *)

Lemma exec_updating cb hooks fs : forall f pre w fuel,
  hooks = updating_hook <$> (pre ++ f :: fs) ->
  cur w = length pre -> length fs <= fuel ->
  exec cb hooks (call_hook cb hooks fuel) (updating_hook f) w
  = Some (mkWorld
            (cb VUndefined (apply_all fs (f (ctx w)))).1
            (cur w + length fs)
            (trace w ++ pass_trace (cur w) (length fs)
               ++ EvNext VUndefined :: EvCb VUndefined
               :: map EvCall (cb VUndefined (apply_all fs (f (ctx w)))).2)
            (queue w)).
Proof.
  induction fs as [|f' fs IH]; intros f pre w fuel Hhooks Hcur Hfuel.
  - unfold updating_hook. simpl. unfold next_with. simpl.
    rewrite (lookup_ge_None_2 hooks (S (cur w))).
    2:{ rewrite Hhooks, length_fmap, length_app. simpl. lia. }
    unfold call_cb, log, set_ctx. simpl.
    rewrite Nat.add_0_r, <- app_assoc. done.
  - destruct fuel as [|fuel]; [simpl in Hfuel; lia|].
    unfold updating_hook. simpl exec. unfold next_with. simpl truthy.
    cbv iota. simpl cur.
    assert (hooks !! S (cur w) = Some (updating_hook f')) as ->.
    { rewrite Hhooks, list_lookup_fmap, Hcur, lookup_app_r by lia.
      replace (S (length pre) - length pre) with 1 by lia. done. }
    simpl call_hook.
    rewrite (IH f' (pre ++ [f]) _ fuel).
    + simpl. unfold apply_all. simpl. f_equal. f_equal; [lia|].
      rewrite <- !app_assoc. done.
    + by rewrite Hhooks, <- app_assoc.
    + simpl. rewrite length_app, Hcur. simpl. lia.
    + simpl in Hfuel. lia.
Qed.

Lemma hooks_called_pass_trace k : forall i,
  hooks_called (pass_trace i k) = seq (S i) k.
Proof. induction k as [|k IH]; intros i; simpl; [done|]. by rewrite IH. Qed.

Lemma calls_of_pass_trace k : forall i, calls_of (pass_trace i k) = [].
Proof. induction k as [|k IH]; intros i; simpl; auto. Qed.

Lemma count_cb_pass_trace k : forall i, count is_cb (pass_trace i k) = 0.
Proof. induction k as [|k IH]; intros i; simpl; auto. Qed.

(** [trigger] on a chain of hooks that write the context and go on. *)
Lemma trigger_updating_hooks b action cb f0 fs w :
  chain_of b action = updating_hook <$> (f0 :: fs) ->
  trigger b action cb (S (length fs)) w
  = Some (mkWorld
            (cb VUndefined (apply_all (f0 :: fs) (ctx w))).1
            (length fs)
            (trace w ++ EvHook 0 :: pass_trace 0 (length fs)
               ++ EvNext VUndefined :: EvCb VUndefined
               :: map EvCall
                    (cb VUndefined (apply_all (f0 :: fs) (ctx w))).2)
            (queue w)).
Proof.
  intros Hb. rewrite trigger_chain_of, Hb.
  pose proof (exec_updating cb (updating_hook <$> (f0 :: fs)) fs f0 []
                (log [EvHook 0] (set_cur 0 w)) (length fs)
                eq_refl eq_refl (le_n _)) as Hexec.
  simpl in Hexec. rewrite <- app_assoc in Hexec. exact Hexec.
Qed.

(** The hooks share one context: when every hook of the chain writes the
    context and calls [next()], [trigger] calls all of them in the order of
    registration before it returns, each hook sees what the hooks before it
    wrote, and the completion callback is called once, with no error, on
    the context as the last hook left it. *)
Theorem hooks_accumulate_writes b action cb f0 fs w :
  chain_of b action = updating_hook <$> (f0 :: fs) ->
  exists w' tr,
    trigger b action cb (S (length fs)) w = Some w' /\
    trace w' = trace w ++ tr /\
    hooks_called tr = seq 0 (S (length fs)) /\
    count is_cb tr = 1 /\
    calls_of tr = (cb VUndefined (apply_all (f0 :: fs) (ctx w))).2 /\
    ctx w' = (cb VUndefined (apply_all (f0 :: fs) (ctx w))).1 /\
    queue w' = queue w.
Proof.
  intros Hb.
  set (calls := (cb VUndefined (apply_all (f0 :: fs) (ctx w))).2).
  eexists _, (EvHook 0 :: pass_trace 0 (length fs)
                ++ EvNext VUndefined :: EvCb VUndefined :: map EvCall calls).
  split; [by apply trigger_updating_hooks|].
  split; [reflexivity|].
  cbn [hooks_called calls_of count is_cb].
  rewrite hooks_called_app, calls_of_app, count_app.
  cbn [hooks_called calls_of count is_cb].
  rewrite hooks_called_pass_trace, hooks_called_calls, app_nil_r,
          calls_of_pass_trace, calls_of_calls, count_cb_pass_trace,
          count_calls_cb.
  by repeat split.
Qed.

Lemma hooks_accumulate_writes_witness :
  let fs := [set_reject (VBool true)] in
  let b := before_all "publish" (updating_hook <$> (set_authorized VNull :: fs))
             (init_hooks new_Bridge) in
  let cb := on_hooks_done b "publish" in
  let w := world_of publish_ctx in
  exists w' tr,
    trigger b "publish" cb (S (length fs)) w = Some w' /\
    trace w' = trace w ++ tr /\
    hooks_called tr = seq 0 (S (length fs)) /\
    count is_cb tr = 1 /\
    calls_of tr
      = (cb VUndefined (apply_all (set_authorized VNull :: fs) (ctx w))).2 /\
    ctx w'
      = (cb VUndefined (apply_all (set_authorized VNull :: fs) (ctx w))).1 /\
    queue w' = queue w.
Proof.
  apply (hooks_accumulate_writes
           (before_all "publish"
              (updating_hook <$> [set_authorized VNull;
                                  set_reject (VBool true)])
              (init_hooks new_Bridge))
           "publish"
           (on_hooks_done
              (before_all "publish"
                 (updating_hook <$> [set_authorized VNull;
                                     set_reject (VBool true)])
                 (init_hooks new_Bridge)) "publish")
           (set_authorized VNull)
           [set_reject (VBool true)] (world_of publish_ctx)).
  vm_compute. reflexivity.
Defined.

(** The decision to dispatch is taken on the context as the hooks left
    it: when the hooks of a publish, subscribe or unsubscribe write the
    context and go on, and the context they leave is unauthorized or
    rejected, the bridge calls nothing on the client and acknowledges once,
    with the flags the hooks wrote. *)
Theorem rejecting_hooks_end_in_one_ack b action f0 fs c :
  action ∈ ["publish"; "subscribe"; "unsubscribe"] ->
  chain_of b action = updating_hook <$> (f0 :: fs) ->
  rejected (apply_all (f0 :: fs) c) = true ->
  exists w',
    trigger b action (on_hooks_done b action) (S (length fs)) (world_of c)
      = Some w' /\
    calls_of (trace w')
      = [ConnAck action (set_error VUndefined (apply_all (f0 :: fs) c)) KAck]
    /\ ctx w' = set_error VUndefined (apply_all (f0 :: fs) c)
    /\ queue w' = [].
Proof.
  intros Hin Hb Hrej.
  assert (action <> "connect") as Hne.
  { intros ->. repeat (apply elem_of_cons in Hin as [Hin|Hin];
                       [discriminate|]).
    by apply elem_of_nil in Hin. }
  eexists. split; [by apply trigger_updating_hooks|]. simpl.
  rewrite calls_of_app. simpl. rewrite calls_of_pass_trace, calls_of_calls.
  unfold on_hooks_done. simpl. rewrite (eqb_connect action Hne).
  unfold rejected in Hrej. simpl in Hrej. by rewrite Hrej.
Qed.

Lemma rejecting_hooks_end_in_one_ack_witness :
  let b := before_all "publish"
             (updating_hook <$> [set_authorized (VBool true);
                                 set_reject (VBool true)])
             (init_hooks new_Bridge) in
  let cfin := apply_all [set_authorized (VBool true); set_reject (VBool true)]
                publish_ctx in
  exists w',
    trigger b "publish" (on_hooks_done b "publish") 2 (world_of publish_ctx)
      = Some w' /\
    calls_of (trace w') = [ConnAck "publish" (set_error VUndefined cfin) KAck]
    /\ ctx w' = set_error VUndefined cfin
    /\ queue w' = [].
Proof.
  apply (rejecting_hooks_end_in_one_ack
           (before_all "publish"
              (updating_hook <$> [set_authorized (VBool true);
                                  set_reject (VBool true)])
              (init_hooks new_Bridge))
           "publish" (set_authorized (VBool true)) [set_reject (VBool true)]
           publish_ctx).
  - apply elem_of_cons. by left.
  - vm_compute. reflexivity.
  - reflexivity.
Defined.

(** ** After the completion *)

Lemma run_ticks_app cb hooks fuel s1 : forall s2 w,
  run_ticks cb hooks fuel (s1 ++ s2) w
  = match run_ticks cb hooks fuel s1 w with
    | Some w1 => run_ticks cb hooks fuel s2 w1
    | None => None
    end.
Proof.
  induction s1 as [|i s1 IH]; intros s2 w; simpl; [done|].
  destruct (tick cb hooks fuel i w); [apply IH|done].
Qed.

Lemma run_chain_inv b action cb sched c h0 hs :
  chain_of b action = h0 :: hs ->
  Forall at_most_once (h0 :: hs) ->
  exists w', run b action cb sched (world_of c) = Some w' /\
             chain_inv (h0 :: hs) w'.
Proof.
  intros Hb Hall. unfold run. rewrite trigger_chain_of, Hb.
  set (hooks := h0 :: hs).
  set (w0 := log [EvHook 0] (set_cur 0 (world_of c))).
  change (call_hook cb hooks (length hooks) h0 w0)
    with (exec cb hooks (call_hook cb hooks (length hs)) h0 w0).
  destruct (exec_linear cb hooks Hall (length hs) h0 w0)
    as (w1 & -> & tr & st & q & Htr & Hq & Hch & Hst).
  { simpl. lia. }
  { by inversion Hall. }
  apply run_ticks_chain_inv; [done|done|].
  exists tr, st. simpl in *. rewrite Hq. simpl.
  split; [done|]. split; [done|].
  destruct st as [j|]; [|done].
  destruct Hst as [Hj Hlin]. by split.
Qed.

(** Completion is final: when every hook calls [next] at most once and
    the completion callback has been called, the work the hooks left for
    later can still run, but it adds nothing to the log: no hook is called,
    the callback is not called again and no collaborator is called, however
    many more turns the event loop takes. *)
Theorem completion_is_final b action cb sched more c h0 hs :
  chain_of b action = h0 :: hs ->
  Forall at_most_once (h0 :: hs) ->
  exists w1,
    run b action cb sched (world_of c) = Some w1 /\
    (1 <= count is_cb (trace w1) ->
     exists w2, run b action cb (sched ++ more) (world_of c) = Some w2 /\
                trace w2 = trace w1).
Proof.
  intros Hb Hall.
  destruct (run_chain_inv b action cb sched c h0 hs Hb Hall)
    as (w1 & Hrun & tr & st & Htr & Hch & Hst).
  exists w1. split; [done|]. intros Hdone.
  rewrite Htr in Hdone. simpl in Hdone.
  rewrite (chain_count_cb _ _ _ _ Hch) in Hdone.
  destruct st as [j|]; [lia|].
  revert Hrun. unfold run.
  destruct (trigger b action cb (length (chain_of b action)) (world_of c))
    as [w0|]; [|done].
  intros Hrun. rewrite run_ticks_app, Hrun.
  destruct (run_ticks_quiet cb (chain_of b action)
              (length (chain_of b action)) more w1 Hst)
    as (w2 & -> & Htr2 & _).
  by exists w2.
Qed.

Lemma completion_is_final_witness :
  let b := before_all "publish"
             [HLater (HUpdate (set_reject (VBool true)) HReturn) hook_pass]
             (init_hooks new_Bridge) in
  exists w1 w2,
    run b "publish" (on_hooks_done b "publish") [] (world_of publish_ctx)
      = Some w1 /\
    1 <= count is_cb (trace w1) /\
    run b "publish" (on_hooks_done b "publish") ([] ++ [0; 0])
      (world_of publish_ctx) = Some w2 /\
    trace w2 = trace w1.
Proof.
  destruct (completion_is_final
              (before_all "publish"
                 [HLater (HUpdate (set_reject (VBool true)) HReturn)
                    hook_pass]
                 (init_hooks new_Bridge))
              "publish"
              (on_hooks_done
                 (before_all "publish"
                    [HLater (HUpdate (set_reject (VBool true)) HReturn)
                       hook_pass]
                    (init_hooks new_Bridge)) "publish")
              [] [0; 0] publish_ctx
              (HLater (HUpdate (set_reject (VBool true)) HReturn) hook_pass)
              [])
    as (w1 & Hrun & Hfinal).
  - vm_compute. reflexivity.
  - constructor; [|constructor]. right. simpl. auto.
  - assert (1 <= count is_cb (trace w1)) as Hdone.
    { vm_compute in Hrun. injection Hrun as <-. vm_compute. lia. }
    destruct (Hfinal Hdone) as (w2 & Hrun2 & Htr2).
    exists w1, w2. repeat split; assumption.
Defined.
